(** * Nova chat gateway: credential rotation, failover and usage quota

    A shallow embedding of the request path of the chat gateway:

    - [src/lib/AI/getRotatedKey.ts]       the credential pool [keys];
    - [src/lib/AI/fetchWithRotatedKey.ts] [shuffle] and [fetchWithRotatedKey];
    - the handler of the [/api/chat] route: [getIP], [checkRateLimit] and
      [POST].

    The code is asynchronous JavaScript that talks to three outside parties:
    the Upstash Redis store, the completion provider reached through
    [axios.post], and the console.  It is embedded in a small state and
    exception monad over a [World] that holds the store, the clock and the
    ordered trace of every outside effect.  What the outside answers (the
    numbers drawn by [Math.random], the provider's replies) is read from an
    environment [Env], so every statement below quantifies over all of them.

    A request is handled at one instant of the store's clock and is not
    interleaved with another one; the store itself always answers. *)

From Stdlib Require Import ZArith NArith Lia List String Ascii Permutation.
From stdpp Require Import base gmap strings list.

Local Open Scope string_scope.
Local Open Scope list_scope.
Local Open Scope Z_scope.

(** ** JavaScript strings

    A header value is a byte string: one [ascii] per code unit.  In that range
    the characters removed by [String.prototype.trim] are TAB, LF, VT, FF, CR,
    SPACE and NBSP. *)

Module JsString.

Definition isWhiteSpace (c : ascii) : bool :=
  let n := N_of_ascii c in
  ((9 <=? n) && (n <=? 13) || (n =? 32) || (n =? 160))%N.

Fixpoint trimStart (s : string) : string :=
  match s with
  | EmptyString => EmptyString
  | String c s' => if isWhiteSpace c then trimStart s' else s
  end.

Fixpoint trimEnd (s : string) : string :=
  match s with
  | EmptyString => EmptyString
  | String c s' =>
      match trimEnd s' with
      | EmptyString => if isWhiteSpace c then EmptyString else String c EmptyString
      | t => String c t
      end
  end.

Definition trim (s : string) : string := trimEnd (trimStart s).

(** [s.split(sep)] for a one-character separator: the pieces between the
    separators, in order; never the empty array ([split] of the empty
    string is the array holding one empty string). *)
Fixpoint split (sep : ascii) (s : string) : list string :=
  match s with
  | EmptyString => [EmptyString]
  | String c s' =>
      if Ascii.eqb c sep then EmptyString :: split sep s'
      else match split sep s' with
           | piece :: pieces => String c piece :: pieces
           | [] => [String c EmptyString]
           end
  end.

(** Every character of [s] satisfies [p]. *)
Fixpoint all (p : ascii -> bool) (s : string) : bool :=
  match s with
  | EmptyString => true
  | String c s' => p c && all p s'
  end.

Definition first (s : string) : option ascii :=
  match s with
  | EmptyString => None
  | String c _ => Some c
  end.

Fixpoint last (s : string) : option ascii :=
  match s with
  | EmptyString => None
  | String c EmptyString => Some c
  | String _ s' => last s'
  end.

(** [s.includes(t)]: [t] occurs inside [s]. *)
Fixpoint includes (s t : string) : bool :=
  String.prefix t s ||
  match s with
  | EmptyString => false
  | String _ s' => includes s' t
  end.

End JsString.

(** ** Requests and responses *)

(** One entry of [payload.messages]; the fields the provider reads. *)
Record ChatMessage := { msg_role : string; msg_content : string }.

(** The parsed request body, a JSON object.  [messages] is [None] when the
    field is absent or [null], and an array of messages otherwise.

    Bodies of other shapes have no term here, and no statement below speaks
    of them: on the body [null], and on a [messages] that is truthy but no
    array, the code throws a [TypeError] at [payload.messages] or at
    [payload.messages.slice], both outside its [try] block. *)
Record Payload := { messages : option (list ChatMessage) }.

(** An inbound request: the [x-forwarded-for] header as [headers.get] gives it
    ([None] for [null]) and the outcome of [request.json()] ([None] when the body
    is not JSON and the promise rejects). *)
Record Request := {
  x_forwarded_for : option string;
  json : option Payload
}.

(** The body and the status of a [NextResponse.json(body, init)]. *)
Record Body := { role : string; content : option string }.
Record Response := { body : Body; status : Z }.

Definition NextResponse_json (b : Body) (init : option Z) : Response :=
  {| body := b; status := default 200 init |}.

(** ** [getIP] *)

(** [a || b] on a nullable string: the empty string is falsy too. *)
Definition or_string (a : option string) (b : string) : string :=
  match a with
  | Some (String c s) => String c s
  | _ => b
  end.

Definition getIP (req : Request) : string :=
  match JsString.split "," (or_string (x_forwarded_for req) EmptyString) !! 0%nat with
  | Some entry => JsString.trim entry
  | None => EmptyString   (* [undefined.trim()]: not reached, [split] is never empty *)
  end.

Definition usage_key (req : Request) : string := "AIDemoUsage:" +:+ getIP req.

(** ** The store, the console and the provider *)

(** A key of the Redis store: the number it holds and the instant it expires
    at, if it has a time to live. *)
Record UsageRecord := { count : Z; expiry : option Z }.

(** The provider's reply body, as far as [POST] reads it:
    [data.choices?.[0]?.message?.content].  The content is a string, as the
    provider's interface has it; the code itself only tests it with [!reply]
    and would forward any truthy value.  A body without [choices] is also
    how an empty body reads: axios hands it back as the empty string, whose
    [choices] is [undefined]. *)
Record AssistantMessage := { reply_content : option string }.
Record Choice := { message : option AssistantMessage }.
Record Completion := { choices : option (list Choice) }.

(** What [axios.post] settles to: resolved with [response.data] on a 2xx
    status ([None] when that is [null], the body being the JSON [null]),
    rejected with an error message otherwise. *)
Inductive AxiosResult :=
| resolved (data : option Completion)
| rejected (message : string).

Inductive exn :=
| Error (message : string)
| TypeError (message : string)
| SyntaxError (message : string)
| AxiosError (message : string).

Definition exn_message (e : exn) : string :=
  match e with
  | Error m | TypeError m | SyntaxError m | AxiosError m => m
  end.

(** Every effect the gateway has on the outside, in the order it happens. *)
Inductive effect :=
| console_log_env (value : option string)
| console_log_payload (p : Payload)
| console_warn (text : string) (detail : string)
| console_error (e : exn)
| redis_get (key : string)
| redis_set (key : string) (value : Z) (ex : Z)
| redis_incr (key : string)
| axios_post (key : string) (model : option string)
             (body_messages : list ChatMessage) (maxTokens : Z)
             (outcome : AxiosResult).

Record World := {
  store : gmap string UsageRecord;
  clock : Z;                 (* the store's time, in seconds *)
  trace : list effect;
  random_calls : nat;        (* calls of [Math.random] so far *)
  http_calls : nat           (* calls of [axios.post] so far *)
}.

(** What the process is given: its environment variables, the numbers
    [Math.random] draws (the [k]-th draw is [Math_random k / 2^53]) and the
    provider's answer to the [k]-th call. *)
Record Env := {
  AI_API_KEY_1 : option string;
  AI_API_KEY_2 : option string;
  AI_API_KEY_3 : option string;
  AI_API_KEY_4 : option string;
  AI_API_KEY_5 : option string;
  AI_API_KEY_6 : option string;
  AI_MODEL : option string;
  UPSTASH_REDIS_REST_URL : option string;
  Math_random : nat -> N;
  provider : nat -> string -> list ChatMessage -> AxiosResult
}.

(** ** The monad of the asynchronous code: state and exceptions *)

Definition M (A : Type) : Type := World -> (exn + A) * World.

Definition ret {A} (a : A) : M A := fun w => (inr a, w).

Definition throw {A} (e : exn) : M A := fun w => (inl e, w).

Definition bind {A B} (m : M A) (k : A -> M B) : M B :=
  fun w => match m w with
           | (inr a, w') => k a w'
           | (inl e, w') => (inl e, w')
           end.

Definition try_catch {A} (m : M A) (handler : exn -> M A) : M A :=
  fun w => match m w with
           | (inr a, w') => (inr a, w')
           | (inl e, w') => handler e w'
           end.

Declare Scope js_scope.
Delimit Scope js_scope with js.
Notation "x <- m ;; k" := (bind m (fun x => k))
  (at level 100, m at next level, right associativity) : js_scope.
Notation "m ;; k" := (bind m (fun _ => k))
  (at level 100, right associativity) : js_scope.
Local Open Scope js_scope.

(** The world after one more effect. *)
Definition record (e : effect) (w : World) : World :=
  {| store := store w; clock := clock w; trace := trace w ++ [e];
     random_calls := random_calls w; http_calls := http_calls w |}.

Definition emit (e : effect) : M unit := fun w => (inr tt, record e w).

(** *** Redis commands *)

Definition live (now : Z) (r : UsageRecord) : bool :=
  match expiry r with
  | Some t => now <? t
  | None => true
  end.

(** The value of [key] right now: [None] ([null]) when the key is missing or
    its time to live has run out. *)
Definition lookup_live (w : World) (key : string) : option UsageRecord :=
  match store w !! key with
  | Some r => if live (clock w) r then Some r else None
  | None => None
  end.

Definition with_store (s : gmap string UsageRecord) (w : World) : World :=
  {| store := s; clock := clock w; trace := trace w;
     random_calls := random_calls w; http_calls := http_calls w |}.

(** [redis.get(key)] *)
Definition redis_GET (key : string) : M (option Z) :=
  emit (redis_get key) ;;
  fun w => (inr (count <$> lookup_live w key), w).

(** [redis.set(key, value, { ex })]: the value and a fresh time to live. *)
Definition redis_SET (key : string) (value : Z) (ex : Z) : M unit :=
  emit (redis_set key value ex) ;;
  fun w => (inr tt,
            with_store (<[key := {| count := value; expiry := Some (clock w + ex) |}]> (store w)) w).

(** [redis.incr(key)]: adds one and keeps the time to live; a missing key
    counts from zero and gets no time to live. *)
Definition redis_INCR (key : string) : M Z :=
  emit (redis_incr key) ;;
  fun w =>
    let r := match lookup_live w key with
             | Some r => {| count := count r + 1; expiry := expiry r |}
             | None => {| count := 1; expiry := None |}
             end in
    (inr (count r), with_store (<[key := r]> (store w)) w).

(** *** [Math.random] and [axios.post] *)

(** The double nearest to [p / 2^53], as its numerator over [2^53]: a double
    holds 53 significant bits, so the bits of [p] beyond its first 53 are
    rounded away, to the nearest, a tie to the even neighbour. *)
Definition round_to_double (p : N) : N :=
  let s := (N.log2 p - 52)%N in
  let q := (p / 2 ^ s)%N in
  let r := (p mod 2 ^ s)%N in
  if ((2 ^ s <? 2 * r) || ((2 ^ s =? 2 * r) && N.odd q))%N
  then ((q + 1) * 2 ^ s)%N
  else (q * 2 ^ s)%N.

(** [Math.floor(x * n)] for the draw [x = u / 2^53]: the product is rounded
    to a double before it is floored. *)
Definition floor_of_product (u : N) (n : nat) : nat :=
  N.to_nat (round_to_double (u * N.of_nat n) / 2 ^ 53)%N.

#[global] Arguments floor_of_product : simpl never.

(** [Math.floor(Math.random() * n)] *)
Definition Math_floor_random (E : Env) (n : nat) : M nat :=
  fun w =>
    let u := (Math_random E (random_calls w) mod 2 ^ 53)%N in
    (inr (floor_of_product u n),
     {| store := store w; clock := clock w; trace := trace w;
        random_calls := S (random_calls w); http_calls := http_calls w |}).

(** [a || b] on an optional number: [undefined] and [0] are falsy. *)
Definition or_number (a : option Z) (b : Z) : Z :=
  match a with
  | Some 0 | None => b
  | Some n => n
  end.

(** One [axios.post] to the completion endpoint, bearer [key].  A rejected
    promise is a thrown exception at the [await]. *)
Definition axios_POST (E : Env) (key : string) (msgs : list ChatMessage)
    (maxTokens : Z) : M (option Completion) :=
  fun w =>
    let outcome := provider E (http_calls w) key msgs in
    let w' := {| store := store w; clock := clock w;
                 trace := trace w ++ [axios_post key (AI_MODEL E) msgs maxTokens outcome];
                 random_calls := random_calls w;
                 http_calls := S (http_calls w) |} in
    match outcome with
    | resolved data => (inr data, w')
    | rejected m => (inl (AxiosError m), w')
    end.

(** ** [getRotatedKey.ts]: the credential pool *)

(** [Boolean(x)] on a nullable string *)
Definition Boolean (x : option string) : bool :=
  match x with
  | Some (String _ _) => true
  | _ => false
  end.

(** [[...].filter(Boolean)] *)
Definition keys (E : Env) : list string :=
  omap (fun x => if Boolean x then x else None)
    [AI_API_KEY_1 E; AI_API_KEY_2 E; AI_API_KEY_3 E;
     AI_API_KEY_4 E; AI_API_KEY_5 E; AI_API_KEY_6 E].

(** ** [fetchWithRotatedKey.ts] *)

(** [[array[i], array[j]] = [array[j], array[i]]].  Both reads are in range
    wherever [shuffle] swaps ([j <= i < array.length], see [Math_floor_random_lt]
    and [swap_in_range]);
    out of range the model leaves the array as it is. *)
Definition swap {A} (array : list A) (i j : nat) : list A :=
  match array !! j, array !! i with
  | Some aj, Some ai => <[j := ai]> (<[i := aj]> array)
  | _, _ => array
  end.

(** The loop of [shuffle], entered with its counter at [i]. *)
Fixpoint shuffle_from {A} (E : Env) (i : nat) (array : list A) : M (list A) :=
  match i with
  | O => ret array
  | S i' =>
      j <- Math_floor_random E (i + 1) ;;
      shuffle_from E i' (swap array i j)
  end.

(** Fisher-Yates shuffle *)
Definition shuffle {A} (E : Env) (array : list A) : M (list A) :=
  shuffle_from E (length array - 1) array.

Definition all_keys_failed : exn := Error "All keys failed. Please try again later.".

Definition key_failed (key : string) : string :=
  "Key failed: " +:+ key +:+ ", retrying...".

(** The [for (const key of shuffledKeys)] loop and the [throw] after it. *)
Fixpoint try_keys (E : Env) (shuffledKeys : list string)
    (msgs : list ChatMessage) (maxTokens : option Z) : M (option Completion) :=
  match shuffledKeys with
  | [] => throw all_keys_failed
  | key :: rest =>
      try_catch
        (axios_POST E key msgs (or_number maxTokens 5000))
        (fun err =>
           emit (console_warn (key_failed key) (exn_message err)) ;;
           try_keys E rest msgs maxTokens)
  end.

Definition fetchWithRotatedKey (E : Env) (msgs : list ChatMessage)
    (maxTokens : option Z) : M (option Completion) :=
  shuffledKeys <- shuffle E (keys E) ;;
  try_keys E shuffledKeys msgs maxTokens.

(** ** The handler of the [/api/chat] route *)

Definition IP_LIMIT : Z := 100.

(** The window a fresh record lives for: [3600 * 24 * 2] seconds. *)
Definition windowDuration : Z := 3600 * 24 * 2.

Module Limit.
Record t := { allowed : bool; reason : option string; status : Z; new : bool }.
End Limit.

(** [used >= IP_LIMIT]: [null] compares as [0]. *)
Definition ge_limit (used : option Z) : bool := IP_LIMIT <=? default 0 used.

(** [!used]: [null] and [0] are falsy. *)
Definition not_used (used : option Z) : bool :=
  match used with
  | None | Some 0 => true
  | Some _ => false
  end.

Definition limit_reached : string :=
  "AI usage limit reached. Get full access when we launch.".

Definition checkRateLimit (req : Request) : M Limit.t :=
  let IP := getIP req in
  used <- redis_GET ("AIDemoUsage:" +:+ IP) ;;
  if ge_limit used then
    ret {| Limit.allowed := false; Limit.reason := Some limit_reached;
           Limit.status := 429; Limit.new := false |}
  else if not_used used then
    ret {| Limit.allowed := true; Limit.reason := None;
           Limit.status := 200; Limit.new := true |}
  else
    ret {| Limit.allowed := true; Limit.reason := None;
           Limit.status := 200; Limit.new := false |}.

Definition LF : string := String (ascii_of_nat 10) EmptyString.

Definition systemPrompt : ChatMessage :=
  {| msg_role := "system";
     msg_content :=
    "You are a friendly, engaging AI assistant named Nova, created for a school technology showcase. " +:+ LF +:+
    "Your goal is to give clear, concise, and interesting responses that are fun to watch on a projector. " +:+ LF +:+
    "Always greet users warmly, answer in a way that keeps the audience engaged, and adapt your tone to be " +:+ LF +:+
    "enthusiastic yet professional. Use occasional emojis to add visual flair (but no more than 2 per message). " +:+ LF +:+
    "Avoid controversial or inappropriate topics, and always keep your responses school-safe." +:+ LF +:+
    LF +:+
    "When explaining concepts, keep sentences short, use bullet points when helpful, and occasionally " +:+ LF +:+
    "give fun facts related to the topic use emojis. If the user asks for something creative, make it colorful." +:+ LF +:+
    LF +:+
    "End every answer with either:" +:+ LF +:+
    "- a short follow-up question to keep the conversation going, OR" +:+ LF +:+
    "- a quick suggestion for something else the user can ask." +:+ LF +:+
    LF |}.

(** [array.slice(-n)]: the last [n] elements, all of them when there are fewer. *)
Definition slice_last {A} (n : nat) (array : list A) : list A :=
  drop (length array - n) array.

(** [await request.json()] *)
Definition request_json (req : Request) : M Payload :=
  match json req with
  | Some payload => ret payload
  | None => throw (SyntaxError "Unexpected token in JSON")
  end.

(** [data.choices?.[0]?.message?.content]; reading [choices] of [null]
    throws. *)
Definition reply_of (data : option Completion) : M (option string) :=
  match data with
  | Some d => ret (cs ← choices d; c ← cs !! 0%nat; m ← message c; reply_content m)
  | None => throw (TypeError "Cannot read properties of undefined (reading 'choices')")
  end.

(** [!reply]: [undefined], [null] and the empty string are falsy. *)
Definition no_reply (reply : option string) : bool := negb (Boolean reply).

Definition no_messages : Response :=
  NextResponse_json {| role := "error"; content := Some "No messages provided" |} (Some 400).

Definition no_response : Response :=
  NextResponse_json {| role := "error"; content := Some "No response received" |} None.

Definition internal_error : Response :=
  NextResponse_json
    {| role := "error";
       content := Some "Some internal error occurred. Please try again later." |}
    (Some 500).

Definition POST (E : Env) (request : Request) : M Response :=
  emit (console_log_env (UPSTASH_REDIS_REST_URL E)) ;;
  limit <- checkRateLimit request ;;
  if negb (Limit.allowed limit) then
    ret (NextResponse_json {| role := "error"; content := Limit.reason limit |}
           (Some (Limit.status limit)))
  else
    payload <- request_json request ;;
    emit (console_log_payload payload) ;;
    match messages payload with
    | None => ret no_messages
    | Some msgs =>
        let chatHistory := systemPrompt :: slice_last 5 msgs in
        try_catch
          (data <- fetchWithRotatedKey E chatHistory None ;;
           reply <- reply_of data ;;
           if no_reply reply then ret no_response
           else
             (if Limit.new limit
              then redis_SET ("AIDemoUsage:" +:+ getIP request) 1 (3600 * 24 * 2)
              else (redis_INCR ("AIDemoUsage:" +:+ getIP request) ;; ret tt)) ;;
             ret (NextResponse_json {| role := "assistant"; content := reply |} (Some 200)))
          (fun error =>
             emit (console_error error) ;;
             ret internal_error)
    end.

(** ** Reading a run

    What a run did is read off the world it leaves: the store, and the effects
    it appended to the trace. *)

(** The client's count in its current window; no live record counts as zero. *)
Definition usage (w : World) (req : Request) : Z :=
  default 0 (count <$> lookup_live w (usage_key req)).

(** The effects a run from [w] appends to the trace. *)
Definition effects {A} (m : M A) (w : World) : list effect :=
  drop (length (trace w)) (trace (m w).2).

(** The upstream calls among some effects: credential and outcome, in order. *)
Definition upstream_call (e : effect) : option (string * AxiosResult) :=
  match e with
  | axios_post key _ _ _ outcome => Some (key, outcome)
  | _ => None
  end.

Definition attempts (evs : list effect) : list (string * AxiosResult) :=
  omap upstream_call evs.

Definition succeeded (a : string * AxiosResult) : bool :=
  match a.2 with
  | resolved _ => true
  | rejected _ => false
  end.

(** The commands that change the store. *)
Definition quota_write (e : effect) : bool :=
  match e with
  | redis_set _ _ _ | redis_incr _ => true
  | _ => false
  end.

(** The conversation an upstream call carried. *)
Definition sent_upstream (e : effect) : option (list ChatMessage) :=
  match e with
  | axios_post _ _ msgs _ _ => Some msgs
  | _ => None
  end.

(** What one failed credential leaves in the trace: the call, rejected with
    [cause], and the warning of the [catch] block. *)
Definition failure (E : Env) (msgs : list ChatMessage) (maxTokens : Z)
    (kc : string * string) : list effect :=
  [axios_post kc.1 (AI_MODEL E) msgs maxTokens (rejected kc.2);
   console_warn (key_failed kc.1) kc.2].

Definition failures (E : Env) (msgs : list ChatMessage) (maxTokens : Z)
    (kcs : list (string * string)) : list effect :=
  concat (failure E msgs maxTokens <$> kcs).

(** A failed credential as an upstream call: the credential, refused with
    its cause. *)
Definition refused (kc : string * string) : string * AxiosResult :=
  (kc.1, rejected kc.2).

(** The reply [POST] reads out of a resolved call, if the body has one. *)
Definition reply_text (data : option Completion) : option string :=
  d ← data; cs ← choices d; c ← cs !! 0%nat; m ← message c; reply_content m.

(** How a dispatch over the credentials [order] went, as its result [r] and
    the effects [evs] it left: either it returned the body of the first call
    that resolved, after the credentials before it had failed, or it threw
    after all of them had failed. *)
Definition dispatched (E : Env) (msgs : list ChatMessage) (maxTokens : Z)
    (order : list string) (r : exn + option Completion) (evs : list effect) : Prop :=
  match r with
  | inr data =>
      exists failed key rest,
        order = failed.*1 ++ key :: rest /\
        evs = failures E msgs maxTokens failed ++
              [axios_post key (AI_MODEL E) msgs maxTokens (resolved data)]
  | inl e =>
      e = all_keys_failed /\
      exists failed, order = failed.*1 /\ evs = failures E msgs maxTokens failed
  end.

(** *** The terminal states of a request

    [POST] ends in one of seven ways.  [handled E req w r w'] lists them, each
    with the response (or the exception that escapes the handler), the store
    and the trace it leaves. *)

(** What [redis.get] answers for the client of [req]. *)
Definition used (w : World) (req : Request) : option Z :=
  count <$> lookup_live w (usage_key req).

(** Every request starts by logging the store's address and reading the
    client's count. *)
Definition prelude (E : Env) (req : Request) : list effect :=
  [console_log_env (UPSTASH_REDIS_REST_URL E); redis_get (usage_key req)].

Definition chatHistory (msgs : list ChatMessage) : list ChatMessage :=
  systemPrompt :: slice_last 5 msgs.

Definition quota_exceeded : Response :=
  NextResponse_json {| role := "error"; content := Some limit_reached |} (Some 429).

Definition answered (reply : string) : Response :=
  NextResponse_json {| role := "assistant"; content := Some reply |} (Some 200).

(** The command that charges the request, and the record it leaves. *)
Definition commit_effect (w : World) (req : Request) : effect :=
  if not_used (used w req)
  then redis_set (usage_key req) 1 windowDuration
  else redis_incr (usage_key req).

Definition committed (w : World) (req : Request) : UsageRecord :=
  if not_used (used w req)
  then {| count := 1; expiry := Some (clock w + windowDuration) |}
  else match lookup_live w (usage_key req) with
       | Some r => {| count := count r + 1; expiry := expiry r |}
       | None => {| count := 1; expiry := None |}
       end.

Inductive handled (E : Env) (req : Request) (w : World) :
    exn + Response -> World -> Prop :=
| Rejected_QuotaExceeded w' :
    ge_limit (used w req) = true ->
    store w' = store w -> clock w' = clock w ->
    trace w' = trace w ++ prelude E req ->
    handled E req w (inr quota_exceeded) w'
| Thrown_SyntaxError w' :
    ge_limit (used w req) = false ->
    json req = None ->
    store w' = store w -> clock w' = clock w ->
    trace w' = trace w ++ prelude E req ->
    handled E req w (inl (SyntaxError "Unexpected token in JSON")) w'
| Rejected_BadRequest payload w' :
    ge_limit (used w req) = false ->
    json req = Some payload -> messages payload = None ->
    store w' = store w -> clock w' = clock w ->
    trace w' = trace w ++ prelude E req ++ [console_log_payload payload] ->
    handled E req w (inr no_messages) w'
| Rejected_ServiceUnavailable payload msgs order e evs w' :
    ge_limit (used w req) = false ->
    json req = Some payload -> messages payload = Some msgs ->
    keys E ≡ₚ order ->
    dispatched E (chatHistory msgs) 5000 order (inl e) evs ->
    store w' = store w -> clock w' = clock w ->
    trace w' = trace w ++ prelude E req ++ console_log_payload payload :: evs
                       ++ [console_error e] ->
    handled E req w (inr internal_error) w'
| Rejected_NullBody payload msgs order e evs w' :
    ge_limit (used w req) = false ->
    json req = Some payload -> messages payload = Some msgs ->
    keys E ≡ₚ order ->
    dispatched E (chatHistory msgs) 5000 order (inr None) evs ->
    e = TypeError "Cannot read properties of undefined (reading 'choices')" ->
    store w' = store w -> clock w' = clock w ->
    trace w' = trace w ++ prelude E req ++ console_log_payload payload :: evs
                       ++ [console_error e] ->
    handled E req w (inr internal_error) w'
| Responded_NoReply payload msgs order d evs w' :
    ge_limit (used w req) = false ->
    json req = Some payload -> messages payload = Some msgs ->
    keys E ≡ₚ order ->
    dispatched E (chatHistory msgs) 5000 order (inr (Some d)) evs ->
    no_reply (reply_text (Some d)) = true ->
    store w' = store w -> clock w' = clock w ->
    trace w' = trace w ++ prelude E req ++ console_log_payload payload :: evs ->
    handled E req w (inr no_response) w'
| Responded payload msgs order d reply evs w' :
    ge_limit (used w req) = false ->
    json req = Some payload -> messages payload = Some msgs ->
    keys E ≡ₚ order ->
    dispatched E (chatHistory msgs) 5000 order (inr (Some d)) evs ->
    reply_text (Some d) = Some reply -> no_reply (Some reply) = false ->
    store w' = <[usage_key req := committed w req]> (store w) ->
    clock w' = clock w ->
    trace w' = trace w ++ prelude E req ++ console_log_payload payload :: evs
                       ++ [commit_effect w req] ->
    handled E req w (inr (answered reply)) w'.

(** ** Scenarios

    A pool of two credentials, a client behind one address, and providers
    that fail or answer per credential. *)

Module Scenario.

Definition K1 : string := "sk-or-v1-first".
Definition K2 : string := "sk-or-v1-second".

Definition hello : option Completion :=
  Some {| choices := Some [ {| message := Some {| reply_content := Some "Hello" |} |} ] |}.

(** A 2xx reply that carries no assistant message. *)
Definition no_choices : option Completion := Some {| choices := Some [] |}.

Definition unauthorized : string := "Request failed with status code 401".

Definition env (answers : nat -> string -> list ChatMessage -> AxiosResult) : Env :=
  {| AI_API_KEY_1 := Some K1; AI_API_KEY_2 := Some K2;
     AI_API_KEY_3 := None; AI_API_KEY_4 := Some EmptyString; AI_API_KEY_5 := None;
     AI_API_KEY_6 := None;
     AI_MODEL := Some "openai/gpt-4o-mini";
     UPSTASH_REDIS_REST_URL := Some "https://example.upstash.io";
     Math_random := fun _ => (2 ^ 53 - 1)%N;   (* every swap is with itself *)
     provider := answers |}.

Definition both_fail : Env := env (fun _ _ _ => rejected unauthorized).

Definition all_answer : Env := env (fun _ _ _ => resolved hello).

(** [K1] is refused, [K2] answers. *)
Definition first_fails : Env :=
  env (fun _ key _ => if String.eqb key K1 then rejected unauthorized else resolved hello).

(** [K1] answers without an assistant message, [K2] would answer. *)
Definition first_is_mute : Env :=
  env (fun _ key _ => if String.eqb key K1 then resolved no_choices else resolved hello).

Definition client : string := "203.0.113.7".

Definition request (msgs : option (list ChatMessage)) : Request :=
  {| x_forwarded_for := Some client; json := Some {| messages := msgs |} |}.

Definition hi : ChatMessage := {| msg_role := "user"; msg_content := "Hi" |}.

Definition turn (n : nat) : ChatMessage :=
  {| msg_role := "user"; msg_content := String (ascii_of_nat (48 + n)) EmptyString |}.

(** A world at time [1000] in which the client has used [n] requests of a
    window that ends at time [5000]; [None] for a client never seen. *)
Definition world (n : option Z) : World :=
  {| store := match n with
              | Some c => {[ "AIDemoUsage:" +:+ client := {| count := c; expiry := Some 5000 |} ]}
              | None => ∅
              end;
     clock := 1000; trace := []; random_calls := 0; http_calls := 0 |}.

(** The request of the scenarios: one user message. *)
Definition ask : Request := request (Some [hi]).

Definition newcomer : World := world None.
Definition regular : World := world (Some 3).
Definition at_limit : World := world (Some 100).

End Scenario.

(** ** The rest of [getRotatedKey.ts] *)

(** [getRotatedKey()]: one credential of the pool, drawn at random;
    [undefined] when the pool is empty ([keys[0]] of an empty array). *)
Definition getRotatedKey (E : Env) : M (option string) :=
  randomIndex <- Math_floor_random E (length (keys E)) ;;
  ret (keys E !! randomIndex).

(** The six configured values, in the order [keys] lists them. *)
Definition configured (E : Env) : list (option string) :=
  [AI_API_KEY_1 E; AI_API_KEY_2 E; AI_API_KEY_3 E;
   AI_API_KEY_4 E; AI_API_KEY_5 E; AI_API_KEY_6 E].

(** ** A client's requests, one after the other

    The gateway serves the requests of a list in order, each from the world
    the one before it left; the answers are collected. *)
Fixpoint serve (E : Env) (reqs : list Request) (w : World) :
    list (exn + Response) * World :=
  match reqs with
  | [] => ([], w)
  | req :: rest =>
      let (r, w1) := POST E req w in
      let (rs, w2) := serve E rest w1 in
      (r :: rs, w2)
  end.

(** The answers that carry a reply of the provider. *)
Definition is_answer (r : exn + Response) : bool :=
  match r with
  | inr response => String.eqb (role (body response)) "assistant"
  | inl _ => false
  end.

(** What a dispatch may leave in the trace: a call to the provider with a
    credential of the pool, carrying the model, the conversation and the
    token budget, or the warning that such a credential failed. *)
Definition dispatch_effect (E : Env) (msgs : list ChatMessage) (budget : Z)
    (e : effect) : Prop :=
  exists key, key ∈ keys E /\
    ((exists outcome, e = axios_post key (AI_MODEL E) msgs budget outcome) \/
     (exists cause, e = console_warn (key_failed key) cause)).

(** More scenarios: a process started without credentials, and a store in
    which the client's window, used up, has run out. *)
Module Setup.

Definition no_keys : Env :=
  {| AI_API_KEY_1 := None; AI_API_KEY_2 := Some EmptyString;
     AI_API_KEY_3 := None; AI_API_KEY_4 := None; AI_API_KEY_5 := None;
     AI_API_KEY_6 := None;
     AI_MODEL := Some "openai/gpt-4o-mini";
     UPSTASH_REDIS_REST_URL := Some "https://example.upstash.io";
     Math_random := fun _ => 0%N;
     provider := fun _ _ _ => resolved Scenario.hello |}.

(** The world [at_limit], two hours after the window ended. *)
Definition window_over : World :=
  {| store := store Scenario.at_limit; clock := 5000 + 7200; trace := [];
     random_calls := 0; http_calls := 0 |}.

(** Another client, behind another address. *)
Definition neighbour : Request :=
  {| x_forwarded_for := Some "198.51.100.23, 10.0.0.1";
     json := Some {| messages := Some [Scenario.hi] |} |}.

End Setup.

(** * Properties *)

(** ** Strings *)

Section Strings.

Import JsString.

#[local] Arguments String.append !s1 s2 : simpl nomatch.

Lemma split_nonempty sep s : split sep s <> [].
Proof.
  destruct s as [|c s]; simpl; [discriminate|].
  destruct (Ascii.eqb c sep); [discriminate|].
  destruct (split sep s); discriminate.
Qed.

(** The first piece of [split] is the text before the first separator. *)
Lemma split_head sep s :
  exists entry pieces,
    split sep s = entry :: pieces /\
    all (fun c => negb (Ascii.eqb c sep)) entry = true /\
    (s = entry \/ exists rest, s = entry +:+ String sep rest).
Proof.
  induction s as [|c s IH]; simpl.
  - exists EmptyString, []. repeat split; auto.
  - destruct (Ascii.eqb c sep) eqn:Hc.
    + apply Ascii.eqb_eq in Hc. subst c.
      exists EmptyString, (split sep s). repeat split.
      right. exists s. reflexivity.
    + destruct IH as (entry & pieces & -> & Hall & Hs).
      exists (String c entry), pieces. simpl. rewrite Hc, Hall.
      repeat split.
      destruct Hs as [->|[rest ->]]; [left|right; exists rest]; reflexivity.
Qed.

Lemma trimStart_spec s :
  exists l, s = l +:+ trimStart s /\ all isWhiteSpace l = true /\
            (forall c, first (trimStart s) = Some c -> isWhiteSpace c = false).
Proof.
  induction s as [|c s IH]; simpl.
  - exists EmptyString. repeat split; auto. discriminate.
  - destruct (isWhiteSpace c) eqn:Hc.
    + destruct IH as (l & Hs & Hl & Hf).
      exists (String c l). simpl. rewrite Hc, Hl. repeat split; auto.
      f_equal. exact Hs.
    + exists EmptyString. simpl. repeat split; auto.
      intros c' [= <-]. exact Hc.
Qed.

Lemma trimEnd_spec s :
  exists r, s = trimEnd s +:+ r /\ all isWhiteSpace r = true /\
            (forall c, last (trimEnd s) = Some c -> isWhiteSpace c = false) /\
            (trimEnd s = EmptyString \/ first (trimEnd s) = first s).
Proof.
  induction s as [|c s IH]; simpl.
  - exists EmptyString. repeat split; auto. discriminate.
  - destruct IH as (r & Hs & Hr & Hl & _).
    destruct (trimEnd s) as [|d t] eqn:Ht.
    + simpl in Hs. subst r.
      destruct (isWhiteSpace c) eqn:Hc.
      * exists (String c s). simpl. rewrite Hc, Hr.
        repeat split; auto; try discriminate.
      * exists s. simpl. repeat split; auto. intros c' [= <-]. exact Hc.
    + exists r. simpl. repeat split; auto.
      f_equal. exact Hs.
Qed.

Lemma append_assoc (a b c : string) : (a +:+ b) +:+ c = a +:+ (b +:+ c).
Proof. induction a as [|x a IH]; simpl; [reflexivity|]. now rewrite IH. Qed.

(** [trim] removes white space, and nothing else, from both ends. *)
Lemma trim_spec s :
  exists l r, s = l +:+ trim s +:+ r /\
              all isWhiteSpace l = true /\ all isWhiteSpace r = true /\
              (forall c, first (trim s) = Some c -> isWhiteSpace c = false) /\
              (forall c, last (trim s) = Some c -> isWhiteSpace c = false).
Proof.
  destruct (trimStart_spec s) as (l & Hs & Hl & Hf).
  destruct (trimEnd_spec (trimStart s)) as (r & Ht & Hr & Hla & Hfi).
  exists l, r. unfold trim. repeat split; auto.
  - rewrite <- Ht. exact Hs.
  - intros c Hc. destruct Hfi as [He|He].
    + rewrite He in Hc. discriminate.
    + apply Hf. congruence.
Qed.

Lemma prefix_append (t s : string) : String.prefix t (t +:+ s) = true.
Proof.
  induction t as [|c t IH]; simpl; [now destruct s|].
  destruct (ascii_dec c c); [exact IH|congruence].
Qed.

(** A text includes whatever was spliced into it. *)
Lemma includes_append (a t b : string) : includes (a +:+ t +:+ b) t = true.
Proof.
  induction a as [|c a IH]; simpl.
  - pose proof (prefix_append t b) as H.
    destruct (t +:+ b); unfold includes; fold includes; rewrite H; reflexivity.
  - rewrite IH. apply orb_true_r.
Qed.

End Strings.

(** ** The shuffle *)

Section Shuffle.

Context {A : Type}.
Implicit Types (array : list A) (i j : nat).

Lemma insert_cons_Permutation array j (x y : A) :
  array !! j = Some y -> y :: <[j := x]> array ≡ₚ x :: array.
Proof.
  revert j. induction array as [|b l IH]; intros [|j] Hj; simplify_eq/=.
  - apply perm_swap.
  - rewrite (perm_swap b y). rewrite (IH j Hj). apply perm_swap.
Qed.

Lemma swap_Permutation array i j : swap array i j ≡ₚ array.
Proof.
  unfold swap.
  destruct (array !! j) as [aj|] eqn:Hj; [|reflexivity].
  destruct (array !! i) as [ai|] eqn:Hi; [|reflexivity].
  revert i j Hi Hj.
  induction array as [|b l IH]; intros [|i] [|j] Hi Hj; simplify_eq/=.
  - reflexivity.
  - apply insert_cons_Permutation, Hj.
  - apply insert_cons_Permutation, Hi.
  - f_equiv. apply IH; assumption.
Qed.

(** Where [shuffle] swaps, both elements exist and do change places. *)
Lemma swap_in_range array i j :
  (i < length array)%nat -> (j <= i)%nat ->
  exists ai aj,
    array !! i = Some ai /\ array !! j = Some aj /\
    swap array i j = <[j := ai]> (<[i := aj]> array).
Proof.
  intros Hi Hj.
  destruct (lookup_lt_is_Some_2 array i Hi) as [ai Hai].
  destruct (lookup_lt_is_Some_2 array j ltac:(lia)) as [aj Haj].
  exists ai, aj. unfold swap. now rewrite Hai, Haj.
Qed.

Lemma swap_length array i j : length (swap array i j) = length array.
Proof.
  unfold swap. destruct (array !! j), (array !! i); try reflexivity.
  now rewrite !length_insert.
Qed.

(** Rounding the product of a draw below one and [n] never reaches [n]. *)
Lemma round_to_double_lt (u n : N) :
  (u < 2 ^ 53)%N -> (0 < n)%N -> (round_to_double (u * n) < n * 2 ^ 53)%N.
Proof.
  intros Hu Hn.
  assert (Hp : (u * n + n <= n * 2 ^ 53)%N) by nia.
  set (p := (u * n)%N) in *.
  unfold round_to_double. cbv zeta.
  set (s := (N.log2 p - 52)%N).
  assert (HT : (2 ^ s)%N <> 0%N) by (apply N.pow_nonzero; discriminate).
  pose proof (N.div_mod p (2 ^ s) HT) as Hdiv.
  pose proof (N.mod_lt p (2 ^ s) HT) as Hr.
  set (q := (p / 2 ^ s)%N) in *. set (r := (p mod 2 ^ s)%N) in *.
  destruct ((2 ^ s <? 2 * r) || ((2 ^ s =? 2 * r) && N.odd q))%N eqn:Hup.
  - assert (Hhalf : (2 ^ s <= 2 * r)%N).
    { apply orb_true_iff in Hup as [H|H].
      - apply N.ltb_lt in H. lia.
      - apply andb_true_iff in H as [H _]. apply N.eqb_eq in H. lia. }
    assert (Hs : s <> 0%N).
    { intros Hs0. assert (H1 : (2 ^ s)%N = 1%N) by (rewrite Hs0; reflexivity). lia. }
    assert (Hlog : N.log2 p = (s + 52)%N) by (unfold s in *; lia).
    assert (Hpos : (0 < p)%N).
    { destruct (N.eq_dec p 0%N) as [H0|]; [|lia].
      rewrite H0 in Hlog. simpl in Hlog. lia. }
    pose proof (N.log2_spec p Hpos) as [Hlow _].
    rewrite Hlog, N.pow_add_r in Hlow.
    set (T := (2 ^ s)%N) in *.
    change (2 ^ 52)%N with 4503599627370496%N in *.
    change (2 ^ 53)%N with 9007199254740992%N in *.
    nia.
  - set (T := (2 ^ s)%N) in *. nia.
Qed.

Lemma floor_of_product_lt (u : N) (n : nat) :
  (u < 2 ^ 53)%N -> (0 < n)%nat -> (floor_of_product u n < n)%nat.
Proof.
  intros Hu Hn. unfold floor_of_product.
  assert (H : (round_to_double (u * N.of_nat n) / 2 ^ 53 < N.of_nat n)%N).
  { apply N.Div0.div_lt_upper_bound.
    rewrite (N.mul_comm (2 ^ 53)).
    apply round_to_double_lt; [exact Hu|lia]. }
  lia.
Qed.

(** [Math.floor(Math.random() * n)] is one of [0 .. n - 1]. *)
Lemma Math_floor_random_lt (E : Env) (n : nat) (w : World) :
  (0 < n)%nat ->
  exists j, (Math_floor_random E n w).1 = inr j /\ (j < n)%nat.
Proof.
  intros Hn. unfold Math_floor_random. simpl. eexists. split; [reflexivity|].
  apply floor_of_product_lt; [|exact Hn].
  apply N.mod_lt. discriminate.
Qed.

(** The loop only draws numbers: it returns a rearrangement of its array
    and leaves the store, the clock, the trace and the call counter alone. *)
Lemma shuffle_from_run (E : Env) i array (w : World) :
  exists order w',
    shuffle_from E i array w = (inr order, w') /\
    array ≡ₚ order /\
    store w' = store w /\ clock w' = clock w /\
    trace w' = trace w /\ http_calls w' = http_calls w.
Proof.
  revert array w. induction i as [|i IH]; intros array w; simpl.
  - exists array, w. repeat split; reflexivity.
  - unfold bind, Math_floor_random. simpl.
    match goal with |- context [shuffle_from E i ?a ?v] =>
      destruct (IH a v) as (order & w' & -> & Hp & Hs & Hc & Ht & Hh) end.
    exists order, w'. repeat split; auto.
    rewrite <- Hp. symmetry. apply swap_Permutation.
Qed.

End Shuffle.

(** ** The dispatcher *)

Section Dispatch.

Variable E : Env.

Lemma try_keys_run (ks : list string) msgs maxTokens (w : World) :
  exists r w' evs,
    try_keys E ks msgs maxTokens w = (r, w') /\
    store w' = store w /\ clock w' = clock w /\
    trace w' = trace w ++ evs /\
    dispatched E msgs (or_number maxTokens 5000) ks r evs.
Proof.
  revert w. induction ks as [|key rest IH]; intros w; simpl.
  - exists (inl all_keys_failed), w, []. rewrite app_nil_r.
    repeat split; auto. exists []. split; reflexivity.
  - unfold try_catch, axios_POST.
    destruct (provider E (http_calls w) key msgs) as [data|cause] eqn:Hp.
    + eexists (inr data), _, _; repeat split; try reflexivity.
      exists [], key, rest. split; reflexivity.
    + unfold bind, emit. simpl.
      match goal with |- context [try_keys E rest msgs maxTokens ?v] =>
        destruct (IH v) as (r & w' & evs & -> & Hs & Hc & Ht & Hd) end.
      simpl in *.
      exists r, w', (failure E msgs (or_number maxTokens 5000) (key, cause) ++ evs).
      repeat split; auto.
      * rewrite Ht. unfold failure. simpl. now rewrite <- !app_assoc.
      * destruct r as [e|data]; simpl in *.
        -- destruct Hd as (-> & failed & -> & ->). split; [reflexivity|].
           exists ((key, cause) :: failed). split; reflexivity.
        -- destruct Hd as (failed & k & rest' & -> & ->).
           exists ((key, cause) :: failed), k, rest'. split; reflexivity.
Qed.

(** A run of [fetchWithRotatedKey]: a dispatch over the rearrangement of the
    pool that [shuffle] returns, which touches neither the store nor the
    clock. *)
Lemma fetch_run msgs maxTokens (w : World) :
  exists r w' order evs,
    fetchWithRotatedKey E msgs maxTokens w = (r, w') /\
    (shuffle E (keys E) w).1 = inr order /\
    keys E ≡ₚ order /\
    store w' = store w /\ clock w' = clock w /\
    trace w' = trace w ++ evs /\
    dispatched E msgs (or_number maxTokens 5000) order r evs.
Proof.
  unfold fetchWithRotatedKey, shuffle, bind.
  destruct (shuffle_from_run E (length (keys E) - 1) (keys E) w)
    as (order & w1 & -> & Hp & Hs1 & Hc1 & Ht1 & _).
  destruct (try_keys_run order msgs maxTokens w1)
    as (r & w' & evs & -> & Hs & Hc & Ht & Hd).
  exists r, w', order, evs. repeat split; auto; congruence.
Qed.

End Dispatch.

(** ** Traces *)

Section Traces.

Lemma effects_app {A} (m : M A) (w : World) evs :
  trace (m w).2 = trace w ++ evs -> effects m w = evs.
Proof. unfold effects. intros ->. apply drop_app_length. Qed.

Lemma attempts_app evs evs' : attempts (evs ++ evs') = attempts evs ++ attempts evs'.
Proof. apply omap_app. Qed.

Variables (E : Env) (msgs : list ChatMessage) (maxTokens : Z).

Lemma failures_cons kc failed :
  failures E msgs maxTokens (kc :: failed)
  = failure E msgs maxTokens kc ++ failures E msgs maxTokens failed.
Proof. reflexivity. Qed.

Lemma attempts_failures failed :
  attempts (failures E msgs maxTokens failed) = refused <$> failed.
Proof.
  induction failed as [|kc failed IH]; [reflexivity|].
  rewrite failures_cons, attempts_app, IH. reflexivity.
Qed.

Lemma quota_write_failures failed :
  filter quota_write (failures E msgs maxTokens failed) = [].
Proof.
  induction failed as [|kc failed IH]; [reflexivity|].
  rewrite failures_cons, filter_app, IH. reflexivity.
Qed.

Lemma sent_failures failed :
  omap sent_upstream (failures E msgs maxTokens failed) = (fun _ => msgs) <$> failed.
Proof.
  induction failed as [|kc failed IH]; [reflexivity|].
  rewrite failures_cons, omap_app, IH. reflexivity.
Qed.

Lemma succeeded_refused failed : filter succeeded (refused <$> failed) = [].
Proof. induction failed as [|kc failed IH]; [reflexivity|]. exact IH. Qed.

Lemma refused_keys failed : (refused <$> failed).*1 = failed.*1.
Proof. induction failed as [|kc failed IH]; [reflexivity|]. cbn. f_equal. exact IH. Qed.

(** What a dispatch leaves in the trace, read as upstream calls. *)
Lemma dispatched_attempts order r evs :
  dispatched E msgs maxTokens order r evs ->
  match r with
  | inr data =>
      exists failed key rest,
        order = failed.*1 ++ key :: rest /\
        attempts evs = (refused <$> failed) ++ [(key, resolved data)]
  | inl _ =>
      exists failed, order = failed.*1 /\ attempts evs = refused <$> failed
  end.
Proof.
  destruct r as [e|data]; simpl.
  - intros (_ & failed & -> & ->). exists failed. split; [reflexivity|].
    apply attempts_failures.
  - intros (failed & key & rest & -> & ->). exists failed, key, rest.
    split; [reflexivity|]. now rewrite attempts_app, attempts_failures.
Qed.

Lemma dispatched_no_quota_write order r evs :
  dispatched E msgs maxTokens order r evs -> filter quota_write evs = [].
Proof.
  destruct r as [e|data]; simpl.
  - intros (_ & failed & _ & ->). apply quota_write_failures.
  - intros (failed & key & rest & _ & ->).
    now rewrite filter_app, quota_write_failures.
Qed.

Lemma dispatched_sent order r evs sent :
  dispatched E msgs maxTokens order r evs ->
  sent ∈ omap sent_upstream evs -> sent = msgs.
Proof.
  destruct r as [e|data]; simpl.
  - intros (_ & failed & _ & ->). rewrite sent_failures.
    intros (? & -> & _)%list_elem_of_fmap. reflexivity.
  - intros (failed & key & rest & _ & ->).
    rewrite omap_app, sent_failures. simpl.
    intros [(? & -> & _)%list_elem_of_fmap | ->%list_elem_of_singleton]%elem_of_app;
      reflexivity.
Qed.

End Traces.

(** ** The handler *)

Section Handler.

Variable E : Env.

Lemma lookup_live_ext (w w' : World) key :
  store w' = store w -> clock w' = clock w ->
  lookup_live w' key = lookup_live w key.
Proof. unfold lookup_live. now intros -> ->. Qed.

Lemma bind_run {A B} (m : M A) (k : A -> M B) w a w1 :
  m w = (inr a, w1) -> bind m k w = k a w1.
Proof. unfold bind. now intros ->. Qed.

Lemma bind_throw {A B} (m : M A) (k : A -> M B) w e w1 :
  m w = (inl e, w1) -> bind m k w = (inl e, w1).
Proof. unfold bind. now intros ->. Qed.

Lemma try_catch_run {A} (m : M A) handler w a w1 :
  m w = (inr a, w1) -> try_catch m handler w = (inr a, w1).
Proof. unfold try_catch. now intros ->. Qed.

Lemma try_catch_throw {A} (m : M A) handler w e w1 :
  m w = (inl e, w1) -> try_catch m handler w = handler e w1.
Proof. unfold try_catch. now intros ->. Qed.

Lemma used_record e w req : used (record e w) req = used w req.
Proof. reflexivity. Qed.

Lemma redis_GET_run key w :
  redis_GET key w = (inr (count <$> lookup_live w key), record (redis_get key) w).
Proof. reflexivity. Qed.

Lemma checkRateLimit_run req w :
  checkRateLimit req w =
  (inr (if ge_limit (used w req) then
          {| Limit.allowed := false; Limit.reason := Some limit_reached;
             Limit.status := 429; Limit.new := false |}
        else
          {| Limit.allowed := true; Limit.reason := None;
             Limit.status := 200; Limit.new := not_used (used w req) |}),
   record (redis_get (usage_key req)) w).
Proof.
  unfold checkRateLimit.
  erewrite bind_run by apply redis_GET_run.
  fold (usage_key req). fold (used w req).
  destruct (ge_limit (used w req)); [reflexivity|].
  destruct (not_used (used w req)); reflexivity.
Qed.

(** Side conditions on the world a run leaves. *)
Ltac side :=
  first [ eassumption | reflexivity
        | unfold committed, commit_effect;
          cbn [record with_store trace store clock prelude];
          repeat match goal with
                 | H : _ = _ |- _ => rewrite H
                 end;
          cbn [app]; rewrite <- ?app_assoc; reflexivity ].

(** Every run of [POST] ends in one of the terminal states. *)
Lemma POST_handled (req : Request) (w : World) r w' :
  POST E req w = (r, w') -> handled E req w r w'.
Proof.
  unfold POST.
  erewrite bind_run by reflexivity.
  erewrite bind_run by apply checkRateLimit_run.
  rewrite !used_record.
  destruct (ge_limit (used w req)) eqn:Hge; cbn [negb Limit.allowed Limit.new Limit.reason Limit.status].
  - intros [= <- <-]. apply Rejected_QuotaExceeded; side.
  - unfold request_json.
    destruct (json req) as [payload|] eqn:Hjson;
      [erewrite bind_run by reflexivity | erewrite bind_throw by reflexivity].
    2: { intros [= <- <-]. apply Thrown_SyntaxError; side. }
    erewrite bind_run by reflexivity.
    destruct (messages payload) as [msgs|] eqn:Hmsgs.
    2: { intros [= <- <-]. eapply Rejected_BadRequest; side. }
    fold (chatHistory msgs).
    match goal with |- try_catch _ _ ?w2 = _ -> _ =>
      destruct (fetch_run E (chatHistory msgs) None w2)
        as (r0 & w3 & order & evs & Hf & _ & Hp & Hs & Hc & Ht & Hd) end.
    cbn [or_number] in Hd. cbn [record store clock trace] in Hs, Hc, Ht.
    assert (Hlive : forall e, lookup_live (record e w3) (usage_key req)
                              = lookup_live w (usage_key req))
      by (intros e; apply lookup_live_ext; assumption).
    unfold try_catch, bind. rewrite Hf.
    destruct r0 as [e|[d|]].
    + cbn [emit ret]. intros [= <- <-]. eapply Rejected_ServiceUnavailable; side.
    + change (reply_of (Some d) w3) with (@inr exn _ (reply_text (Some d)), w3).
      cbv beta iota.
      destruct (no_reply (reply_text (Some d))) eqn:Hno.
      { cbn [ret]. intros [= <- <-]. eapply Responded_NoReply; side. }
      destruct (reply_text (Some d)) as [reply|] eqn:Hr; [|discriminate].
      fold (usage_key req).
      destruct (not_used (used w req)) eqn:Hnew;
        cbn [redis_SET redis_INCR emit bind ret];
        intros [= <- <-]; eapply Responded; try side.
      cbn [with_store store]. rewrite Hlive. side.
    + cbn [reply_of throw emit ret]. intros [= <- <-].
      eapply Rejected_NullBody; side.
Qed.

End Handler.

(** ** The client identifier *)

(** C10.  The identifier a request is counted under is the first
    comma-separated entry of its [x-forwarded-for] header with the white space
    at both ends removed: the header is that entry alone or the entry, a comma
    and the rest; the entry holds no comma; and the identifier is the entry
    less some white space before and after it, itself starting and ending
    with none.  A request without the header is counted under the empty
    identifier, so any two such requests read and charge the one record
    [AIDemoUsage:]. *)
Theorem C10_client_identifier (req : Request) :
  (forall header, x_forwarded_for req = Some header ->
     exists entry before after,
       (header = entry \/ exists rest, header = entry +:+ "," +:+ rest) /\
       JsString.all (fun c => negb (Ascii.eqb c ",")) entry = true /\
       entry = before +:+ getIP req +:+ after /\
       JsString.all JsString.isWhiteSpace before = true /\
       JsString.all JsString.isWhiteSpace after = true /\
       (forall c, JsString.first (getIP req) = Some c -> JsString.isWhiteSpace c = false) /\
       (forall c, JsString.last (getIP req) = Some c -> JsString.isWhiteSpace c = false)) /\
  (x_forwarded_for req = None ->
     getIP req = EmptyString /\ usage_key req = "AIDemoUsage:" /\
     forall req', x_forwarded_for req' = None ->
       usage_key req' = usage_key req /\
       forall w, used w req' = used w req /\ usage w req' = usage w req).
Proof.
  split.
  - intros header Hh. unfold getIP. rewrite Hh.
    assert (Hor : or_string (Some header) EmptyString = header) by now destruct header.
    rewrite Hor.
    destruct (split_head "," header) as (entry & pieces & -> & Hall & Hs).
    simpl.
    destruct (trim_spec entry) as (l & r & He & Hl & Hr & Hf & Hla).
    exists entry, l, r. repeat split; auto.
  - intros Hnone.
    assert (Hip : forall r, x_forwarded_for r = None -> getIP r = EmptyString).
    { intros r Hr. unfold getIP. rewrite Hr. reflexivity. }
    split; [auto|]. split; [unfold usage_key; now rewrite Hip|].
    intros req' Hnone'.
    assert (Hk : usage_key req' = usage_key req)
      by (unfold usage_key; now rewrite !Hip).
    split; [exact Hk|]. intros w. unfold usage, used. now rewrite Hk.
Qed.

Lemma C10_client_identifier_witness :
  getIP {| x_forwarded_for := None; json := None |} = EmptyString /\
  usage_key {| x_forwarded_for := None; json := None |} = "AIDemoUsage:" /\
  forall req', x_forwarded_for req' = None ->
    usage_key req' = usage_key {| x_forwarded_for := None; json := None |} /\
    forall w, used w req' = used w {| x_forwarded_for := None; json := None |} /\
              usage w req' = usage w {| x_forwarded_for := None; json := None |}.
Proof.
  exact (proj2 (C10_client_identifier {| x_forwarded_for := None; json := None |}) eq_refl).
Defined.

(** ** The failover dispatcher *)

(** C6.  A dispatch tries the credentials in the order [shuffle] returns,
    which is a rearrangement of the pool.  The credentials it calls, in the
    order of the calls, are an initial part of that order, so each entry of
    the pool is called at most once (and no credential twice when the pool
    holds none twice).  A call that resolves is the last call made, so at
    most one call resolves; the dispatch returns the body of that call, and
    it throws only after calling, without success, every credential. *)
Theorem C6_dispatch_order (E : Env) (msgs : list ChatMessage)
    (maxTokens : option Z) (w : World) :
  exists order,
    (shuffle E (keys E) w).1 = inr order /\
    keys E ≡ₚ order /\
    let calls := attempts (effects (fetchWithRotatedKey E msgs maxTokens) w) in
    calls.*1 `prefix_of` order /\
    calls.*1 ⊆+ keys E /\
    (NoDup (keys E) -> NoDup calls.*1) /\
    (forall i a, calls !! i = Some a -> succeeded a = true -> S i = length calls) /\
    (length (filter succeeded calls) <= 1)%nat /\
    match (fetchWithRotatedKey E msgs maxTokens w).1 with
    | inr data => exists key, last calls = Some (key, resolved data)
    | inl _ => calls.*1 = order /\ filter succeeded calls = []
    end.
Proof.
  destruct (fetch_run E msgs maxTokens w)
    as (r & w' & order & evs & Hf & Hsh & Hp & _ & _ & Ht & Hd).
  exists order. split; [exact Hsh|]. split; [exact Hp|].
  assert (He : effects (fetchWithRotatedKey E msgs maxTokens) w = evs)
    by (apply effects_app; rewrite Hf; exact Ht).
  rewrite He, Hf. cbn [fst]. clear He Hf Ht Hsh.
  apply dispatched_attempts in Hd.
  assert (Hpre : forall calls : list string,
             calls `prefix_of` order ->
             calls ⊆+ keys E /\ (NoDup (keys E) -> NoDup calls)).
  { intros calls [rest ->]. split.
    - rewrite Hp. apply submseteq_inserts_r. reflexivity.
    - rewrite Hp. intros Hnd%NoDup_app. tauto. }
  destruct r as [e|data]; cbv zeta.
  - destruct Hd as (failed & -> & ->). rewrite refused_keys.
    assert (Hself : failed.*1 `prefix_of` failed.*1) by reflexivity.
    destruct (Hpre _ Hself) as [Hsub Hnd].
    rewrite succeeded_refused. repeat split; auto.
    intros i a (kc & -> & _)%list_lookup_fmap_Some. discriminate.
  - destruct Hd as (failed & key & rest & -> & ->).
    rewrite fmap_app, refused_keys, filter_app, succeeded_refused, last_snoc.
    cbn [fmap list_fmap fst app].
    assert (Hpr : failed.*1 ++ [key] `prefix_of` failed.*1 ++ key :: rest).
    { exists rest. now rewrite <- app_assoc. }
    destruct (Hpre _ Hpr) as [Hsub Hnd].
    repeat split; eauto.
    intros i a [[_ (kc & -> & _)%list_lookup_fmap_Some]|[-> _]]%lookup_snoc_Some;
      [discriminate|].
    intros _. rewrite length_app, length_fmap. simpl. lia.
Qed.

Lemma C6_dispatch_order_witness :
  NoDup (keys Scenario.first_fails) /\
  NoDup (attempts (effects (fetchWithRotatedKey Scenario.first_fails
                              [Scenario.hi] None) Scenario.newcomer)).*1.
Proof.
  assert (Hpool : NoDup (keys Scenario.first_fails))
    by (apply (bool_decide_unpack _); vm_compute; exact I).
  destruct (C6_dispatch_order Scenario.first_fails [Scenario.hi] None
              Scenario.newcomer) as (order & _ & _ & _ & _ & Hnd & _).
  exact (conj Hpool (Hnd Hpool)).
Defined.

Lemma warn_in_failures (E : Env) msgs maxTokens failed key cause :
  (key, cause) ∈ failed ->
  console_warn (key_failed key) cause ∈ failures E msgs maxTokens failed.
Proof.
  induction failed as [|kc failed IH]; [now intros ?%elem_of_nil|].
  rewrite failures_cons, elem_of_cons, elem_of_app.
  intros [<-|Hin]; [left|right; auto].
  unfold failure. simpl. set_solver.
Qed.

(** C7.  When a dispatch throws, the error is the fixed
    [Error("All keys failed. Please try again later.")], whatever the
    credentials and whatever made them fail: it carries neither causes nor
    credentials.  The causes are in the log only: the dispatch leaves, for
    every credential of the pool, its rejected call followed by a warning
    that holds the cause, and the text of that warning includes the
    credential itself. *)
Theorem C7_all_keys_failed (E : Env) (msgs : list ChatMessage)
    (maxTokens : option Z) (w w' : World) (e : exn) :
  fetchWithRotatedKey E msgs maxTokens w = (inl e, w') ->
  e = Error "All keys failed. Please try again later." /\
  exists failed,
    keys E ≡ₚ failed.*1 /\
    effects (fetchWithRotatedKey E msgs maxTokens) w
    = failures E msgs (or_number maxTokens 5000) failed /\
    forall key cause, (key, cause) ∈ failed ->
      console_warn (key_failed key) cause
        ∈ effects (fetchWithRotatedKey E msgs maxTokens) w /\
      JsString.includes (key_failed key) key = true.
Proof.
  intros Hrun.
  destruct (fetch_run E msgs maxTokens w)
    as (r & w1 & order & evs & Hf & _ & Hp & _ & _ & Ht & Hd).
  assert (He : effects (fetchWithRotatedKey E msgs maxTokens) w = evs)
    by (apply effects_app; rewrite Hf; exact Ht).
  rewrite Hrun in Hf. injection Hf as <- <-.
  destruct Hd as (-> & failed & -> & ->).
  split; [reflexivity|]. exists failed. rewrite He.
  repeat split; auto.
  - now apply warn_in_failures.
  - unfold key_failed. apply includes_append.
Qed.

Lemma C7_all_keys_failed_witness :
  fetchWithRotatedKey Scenario.both_fail [Scenario.hi] None Scenario.newcomer
  = (inl (Error "All keys failed. Please try again later."),
     (fetchWithRotatedKey Scenario.both_fail [Scenario.hi] None Scenario.newcomer).2) /\
  Error "All keys failed. Please try again later."
  = Error "All keys failed. Please try again later." /\
  exists failed,
    keys Scenario.both_fail ≡ₚ failed.*1 /\
    effects (fetchWithRotatedKey Scenario.both_fail [Scenario.hi] None)
      Scenario.newcomer
    = failures Scenario.both_fail [Scenario.hi] (or_number None 5000) failed /\
    forall key cause, (key, cause) ∈ failed ->
      console_warn (key_failed key) cause
        ∈ effects (fetchWithRotatedKey Scenario.both_fail [Scenario.hi] None)
            Scenario.newcomer /\
      JsString.includes (key_failed key) key = true.
Proof.
  assert (Hrun : fetchWithRotatedKey Scenario.both_fail [Scenario.hi] None
                   Scenario.newcomer
                 = (inl (Error "All keys failed. Please try again later."),
                    (fetchWithRotatedKey Scenario.both_fail [Scenario.hi] None
                       Scenario.newcomer).2))
    by (vm_compute; reflexivity).
  exact (conj Hrun
           (C7_all_keys_failed Scenario.both_fail [Scenario.hi] None
              Scenario.newcomer _ _ Hrun)).
Defined.

(** C7, as the specification words it, fails on a pool whose two credentials
    are both refused: the error that is thrown does not include the cause of
    the refusals, and the log holds a warning whose text includes the first
    credential. *)
Lemma C7_counterexample :
  (fetchWithRotatedKey Scenario.both_fail [Scenario.hi] None (Scenario.world None)).1
  = inl (Error "All keys failed. Please try again later.") /\
  JsString.includes "All keys failed. Please try again later." Scenario.unauthorized
  = false /\
  console_warn "Key failed: sk-or-v1-first, retrying..." Scenario.unauthorized
    ∈ trace (fetchWithRotatedKey Scenario.both_fail [Scenario.hi] None
               (Scenario.world None)).2 /\
  JsString.includes "Key failed: sk-or-v1-first, retrying..." Scenario.K1 = true.
Proof.
  repeat split; try (vm_compute; reflexivity).
  vm_compute. set_solver.
Qed.

(** ** The quota and the gateway handler *)

Section Quota.

Variable E : Env.
Implicit Types (req : Request) (w : World).

Lemma POST_cases req w : handled E req w (POST E req w).1 (POST E req w).2.
Proof. apply POST_handled. now destruct (POST E req w). Qed.

Lemma usage_used w req : usage w req = default 0 (used w req).
Proof. reflexivity. Qed.

Lemma ge_limit_usage w req :
  ge_limit (used w req) = false <-> usage w req < IP_LIMIT.
Proof. rewrite usage_used. unfold ge_limit. apply Z.leb_gt. Qed.

Lemma usage_unchanged w w' req :
  store w' = store w -> clock w' = clock w -> usage w' req = usage w req.
Proof. intros Hs Hc. unfold usage. now rewrite (lookup_live_ext w w'). Qed.

Lemma committed_live w req : live (clock w) (committed w req) = true.
Proof.
  assert (Hnew : (clock w <? clock w + windowDuration) = true)
    by (apply Z.ltb_lt; unfold windowDuration; lia).
  unfold committed, used, lookup_live.
  destruct (store w !! usage_key req) as [r|]; simpl; [|exact Hnew].
  destruct (live (clock w) r) eqn:Hl; simpl; [|exact Hnew].
  destruct (count r); simpl; [exact Hnew|exact Hl|exact Hl].
Qed.

Lemma committed_count w req : count (committed w req) = usage w req + 1.
Proof.
  unfold usage, committed, used.
  destruct (lookup_live w (usage_key req)) as [r|]; simpl; [|reflexivity].
  destruct (count r); reflexivity.
Qed.

(** The command that charges a request adds one to the client's count. *)
Lemma usage_committed w w' req :
  store w' = <[usage_key req := committed w req]> (store w) ->
  clock w' = clock w ->
  usage w' req = usage w req + 1.
Proof.
  intros Hs Hc. rewrite <- committed_count.
  unfold usage at 1. unfold lookup_live.
  now rewrite Hs, Hc, lookup_insert_eq, committed_live.
Qed.

End Quota.

Lemma effects_run {A} (m : M A) (w w' : World) r evs :
  m w = (r, w') -> trace w' = trace w ++ evs -> effects m w = evs.
Proof. intros Hm Ht. apply effects_app. now rewrite Hm. Qed.

(** Runs [POST] and splits on the terminal state it ends in; [effects] of
    the run is rewritten to the effects of that state. *)
Ltac run_POST E req w :=
  let r := fresh "r" in
  let w' := fresh "w'" in
  let HP := fresh "HP" in
  let H := fresh "Hrun" in
  destruct (POST E req w) as [r w'] eqn:HP;
  pose proof (POST_handled E req w r w' HP) as H;
  inversion H; subst; clear H;
  match goal with
  | Ht : trace w' = trace w ++ _ |- _ =>
      try rewrite (effects_run _ _ _ _ _ HP Ht) in *
  end;
  cbn [fst snd].

Lemma commit_no_attempt w req : omap upstream_call [commit_effect w req] = [].
Proof. unfold commit_effect. now destruct (not_used (used w req)). Qed.

Lemma commit_not_sent w req : omap sent_upstream [commit_effect w req] = [].
Proof. unfold commit_effect. now destruct (not_used (used w req)). Qed.

Lemma commit_quota_write w req :
  filter quota_write [commit_effect w req] = [commit_effect w req].
Proof. unfold commit_effect. now destruct (not_used (used w req)). Qed.

(** Reads the upstream calls, the store commands or the conversations out
    of the effects of a terminal state. *)
Ltac read_trace :=
  unfold prelude, attempts;
  repeat (progress (rewrite ?omap_app, ?filter_app,
                      ?commit_no_attempt, ?commit_not_sent, ?commit_quota_write,
                      ?filter_cons, ?filter_nil;
                    simpl));
  repeat match goal with
         | |- context [omap upstream_call ?x] =>
             change (omap upstream_call x) with (attempts x)
         | |- context [list_omap _ _ upstream_call ?x] =>
             change (list_omap _ _ upstream_call x) with (attempts x)
         | |- context [list_omap _ _ sent_upstream ?x] =>
             change (list_omap _ _ sent_upstream x) with (omap sent_upstream x)
         end;
  rewrite ?app_nil_r.

(** A dispatch that returned made a call that resolved. *)
Lemma dispatched_resolved (E : Env) msgs maxTokens order data evs :
  dispatched E msgs maxTokens order (inr data) evs ->
  exists failed key,
    attempts evs = (refused <$> failed) ++ [(key, resolved data)].
Proof.
  intros (failed & key & rest & _ & Ha)%dispatched_attempts. eauto.
Qed.

Lemma resolved_not_all_failed (failed : list (string * string)) key data :
  Forall (fun a => succeeded a = false) ((refused <$> failed) ++ [(key, resolved data)]) ->
  False.
Proof.
  intros [_ Hlast%Forall_inv]%Forall_app. discriminate Hlast.
Qed.

(** C1.  A request whose body carries no [messages] value, from a client
    that is under its quota, is answered with status 400 and the body
    [{role: error, content: No messages provided}]; the run makes no upstream
    call and sends the store no command that changes it, and the store is
    left as it was. *)
Theorem C1_missing_messages (E : Env) (req : Request) (w : World)
    (payload : Payload) :
  json req = Some payload -> messages payload = None ->
  usage w req < IP_LIMIT ->
  (POST E req w).1
  = inr {| body := {| role := "error"; content := Some "No messages provided" |};
           status := 400 |} /\
  attempts (effects (POST E req) w) = [] /\
  filter quota_write (effects (POST E req) w) = [] /\
  store (POST E req w).2 = store w.
Proof.
  intros Hjson Hmsgs Hlt%ge_limit_usage.
  run_POST E req w; try congruence.
  repeat split; auto.
Qed.

Lemma C1_missing_messages_witness :
  json (Scenario.request None) = Some {| messages := None |} /\
  messages {| messages := None |} = None /\
  usage Scenario.regular (Scenario.request None) < IP_LIMIT /\
  (POST Scenario.all_answer (Scenario.request None) Scenario.regular).1
  = inr {| body := {| role := "error"; content := Some "No messages provided" |};
           status := 400 |} /\
  attempts (effects (POST Scenario.all_answer (Scenario.request None))
              Scenario.regular) = [] /\
  filter quota_write (effects (POST Scenario.all_answer (Scenario.request None))
                        Scenario.regular) = [] /\
  store (POST Scenario.all_answer (Scenario.request None) Scenario.regular).2
  = store Scenario.regular.
Proof.
  assert (Hlt : usage Scenario.regular (Scenario.request None) < IP_LIMIT)
    by (vm_compute; reflexivity).
  exact (conj eq_refl (conj eq_refl (conj Hlt
           (C1_missing_messages Scenario.all_answer (Scenario.request None)
              Scenario.regular {| messages := None |} eq_refl eq_refl Hlt)))).
Defined.

(** C1, as the specification words it, fails twice over.  A request with an
    empty [messages] array from a client never seen is dispatched and
    answered with status 200, one upstream call is made and the client's
    count goes from 0 to 1; and a request with no messages from a client at
    its limit is answered with status 429. *)
Lemma C1_counterexample :
  (POST Scenario.all_answer (Scenario.request (Some [])) (Scenario.world None)).1
  = inr {| body := {| role := "assistant"; content := Some "Hello" |};
           status := 200 |} /\
  length (attempts (effects (POST Scenario.all_answer (Scenario.request (Some [])))
                      (Scenario.world None))) = 1%nat /\
  usage (Scenario.world None) (Scenario.request (Some [])) = 0 /\
  usage (POST Scenario.all_answer (Scenario.request (Some [])) (Scenario.world None)).2
    (Scenario.request (Some [])) = 1 /\
  (POST Scenario.all_answer (Scenario.request None) (Scenario.world (Some 100))).1
  = inr {| body := {| role := "error";
                      content := Some "AI usage limit reached. Get full access when we launch." |};
           status := 429 |}.
Proof. repeat split; vm_compute; reflexivity. Qed.

(** C3.  When a request is dispatched (its client is under the quota and
    its body has messages) and none of its upstream calls resolves, the
    gateway answers with status 500 and an error payload, the client's count
    is what it was, the store is untouched and the run sends it no command
    that changes it. *)
Theorem C3_failed_dispatch_is_free (E : Env) (req : Request) (w : World)
    (payload : Payload) (msgs : list ChatMessage) :
  json req = Some payload -> messages payload = Some msgs ->
  usage w req < IP_LIMIT ->
  Forall (fun a => succeeded a = false) (attempts (effects (POST E req) w)) ->
  (POST E req w).1
  = inr {| body := {| role := "error";
                      content := Some "Some internal error occurred. Please try again later." |};
           status := 500 |} /\
  usage (POST E req w).2 req = usage w req /\
  store (POST E req w).2 = store w /\
  filter quota_write (effects (POST E req) w) = [].
Proof.
  intros Hjson Hmsgs Hlt%ge_limit_usage Hall.
  run_POST E req w; try congruence.
  2-4: exfalso; revert Hall; read_trace;
    match goal with
    | Hd : dispatched _ _ _ _ (inr _) _ |- _ =>
        let Ha := fresh "Ha" in
        destruct (dispatched_resolved _ _ _ _ _ _ Hd) as (? & ? & Ha);
        rewrite Ha
    end;
    apply resolved_not_all_failed.
  repeat split; auto using usage_unchanged.
  read_trace. erewrite dispatched_no_quota_write by eassumption. reflexivity.
Qed.

Lemma C3_failed_dispatch_is_free_witness :
  json Scenario.ask = Some {| messages := Some [Scenario.hi] |} /\
  usage Scenario.regular Scenario.ask < IP_LIMIT /\
  Forall (fun a => succeeded a = false)
    (attempts (effects (POST Scenario.both_fail Scenario.ask) Scenario.regular)) /\
  (POST Scenario.both_fail Scenario.ask Scenario.regular).1
  = inr {| body := {| role := "error";
                      content := Some "Some internal error occurred. Please try again later." |};
           status := 500 |} /\
  usage (POST Scenario.both_fail Scenario.ask Scenario.regular).2 Scenario.ask
  = usage Scenario.regular Scenario.ask /\
  store (POST Scenario.both_fail Scenario.ask Scenario.regular).2
  = store Scenario.regular /\
  filter quota_write
    (effects (POST Scenario.both_fail Scenario.ask) Scenario.regular) = [].
Proof.
  assert (Hlt : usage Scenario.regular Scenario.ask < IP_LIMIT)
    by (vm_compute; reflexivity).
  assert (Hall : Forall (fun a => succeeded a = false)
                   (attempts (effects (POST Scenario.both_fail Scenario.ask)
                                Scenario.regular)))
    by (vm_compute; repeat constructor).
  exact (conj eq_refl (conj Hlt (conj Hall
           (C3_failed_dispatch_is_free Scenario.both_fail Scenario.ask
              Scenario.regular {| messages := Some [Scenario.hi] |} [Scenario.hi]
              eq_refl eq_refl Hlt Hall)))).
Defined.

(** C2.  The quota check comes first: every run of [POST] starts by logging
    the store's address and reading the client's count, whatever the request
    holds.  When the client is at its limit the run ends there, with status
    429, and the body of the request is never looked at; the answer
    [No messages provided] is only ever given to a client that the quota
    check has let through. *)
Theorem C2_quota_check_first (E : Env) (req : Request) (w : World) :
  (exists evs,
     effects (POST E req) w
     = console_log_env (UPSTASH_REDIS_REST_URL E) :: redis_get (usage_key req) :: evs) /\
  (IP_LIMIT <= usage w req ->
     (POST E req w).1
     = inr {| body := {| role := "error";
                         content := Some "AI usage limit reached. Get full access when we launch." |};
              status := 429 |} /\
     effects (POST E req) w
     = [console_log_env (UPSTASH_REDIS_REST_URL E); redis_get (usage_key req)]) /\
  ((POST E req w).1 = inr no_messages -> usage w req < IP_LIMIT).
Proof.
  split; [|split].
  - run_POST E req w; unfold prelude; simpl; eauto.
  - intros Hge. assert (Hlim : ge_limit (used w req) = true).
    { destruct (ge_limit (used w req)) eqn:Hg; [reflexivity|].
      apply ge_limit_usage in Hg. lia. }
    run_POST E req w; try congruence. split; reflexivity.
  - run_POST E req w; try discriminate.
    intros _. now apply ge_limit_usage.
Qed.

Lemma C2_quota_check_first_witness :
  IP_LIMIT <= usage Scenario.at_limit (Scenario.request None) /\
  (POST Scenario.all_answer (Scenario.request None) Scenario.at_limit).1
  = inr {| body := {| role := "error";
                      content := Some "AI usage limit reached. Get full access when we launch." |};
           status := 429 |} /\
  effects (POST Scenario.all_answer (Scenario.request None)) Scenario.at_limit
  = [console_log_env (UPSTASH_REDIS_REST_URL Scenario.all_answer);
     redis_get (usage_key (Scenario.request None))].
Proof.
  assert (Hge : IP_LIMIT <= usage Scenario.at_limit (Scenario.request None))
    by (vm_compute; discriminate).
  exact (conj Hge
           (proj1 (proj2 (C2_quota_check_first Scenario.all_answer
                            (Scenario.request None) Scenario.at_limit)) Hge)).
Defined.

(** C2, as the specification words it, fails for a client at its limit: a
    request with no messages, and one with an empty [messages] array, are
    both answered 429 after the client's count was read, not 400. *)
Lemma C2_counterexample :
  POST Scenario.all_answer (Scenario.request None) (Scenario.world (Some 100))
  = (inr {| body := {| role := "error";
                       content := Some "AI usage limit reached. Get full access when we launch." |};
            status := 429 |},
     record (redis_get "AIDemoUsage:203.0.113.7")
       (record (console_log_env (Some "https://example.upstash.io"))
          (Scenario.world (Some 100)))) /\
  POST Scenario.all_answer (Scenario.request (Some [])) (Scenario.world (Some 100))
  = (inr {| body := {| role := "error";
                       content := Some "AI usage limit reached. Get full access when we launch." |};
            status := 429 |},
     record (redis_get "AIDemoUsage:203.0.113.7")
       (record (console_log_env (Some "https://example.upstash.io"))
          (Scenario.world (Some 100)))).
Proof. split; vm_compute; reflexivity. Qed.

(** C5.  For a client whose count in the current window has reached
    [IP_LIMIT], the quota check answers [allowed = false] with status 429,
    and the gateway answers 429 with the quota message; the store and the
    client's count are left as they were and no upstream call is made.
    Whenever the check does answer [allowed = true], charging the request
    keeps the count within [IP_LIMIT]: a count that is within the limit
    before a request is within it afterwards. *)
Theorem C5_quota_exceeded (E : Env) (req : Request) (w : World) :
  (IP_LIMIT <= usage w req ->
     (exists limit w1,
        checkRateLimit req w = (inr limit, w1) /\
        Limit.allowed limit = false /\ Limit.status limit = 429) /\
     (POST E req w).1
     = inr {| body := {| role := "error";
                         content := Some "AI usage limit reached. Get full access when we launch." |};
              status := 429 |} /\
     store (POST E req w).2 = store w /\
     usage (POST E req w).2 req = usage w req /\
     attempts (effects (POST E req) w) = [] /\
     filter quota_write (effects (POST E req) w) = []) /\
  (forall limit w1,
     checkRateLimit req w = (inr limit, w1) ->
     Limit.allowed limit = true -> usage w req + 1 <= IP_LIMIT) /\
  (usage w req <= IP_LIMIT -> usage (POST E req w).2 req <= IP_LIMIT).
Proof.
  split; [|split].
  - intros Hge. assert (Hlim : ge_limit (used w req) = true).
    { destruct (ge_limit (used w req)) eqn:Hg; [reflexivity|].
      apply ge_limit_usage in Hg. lia. }
    split.
    + rewrite checkRateLimit_run, Hlim. eauto.
    + run_POST E req w; try congruence.
      repeat split; auto using usage_unchanged.
  - intros limit w1. rewrite checkRateLimit_run.
    destruct (ge_limit (used w req)) eqn:Hg; intros [= <- _]; [discriminate|].
    intros _. apply ge_limit_usage in Hg. lia.
  - intros Hle. run_POST E req w;
      try (erewrite usage_unchanged by eassumption; exact Hle).
    erewrite usage_committed by eassumption.
    match goal with Hg : ge_limit _ = false |- _ => apply ge_limit_usage in Hg end.
    lia.
Qed.

Lemma C5_quota_exceeded_witness :
  IP_LIMIT <= usage Scenario.at_limit Scenario.ask /\
  (exists limit w1,
     checkRateLimit Scenario.ask Scenario.at_limit = (inr limit, w1) /\
     Limit.allowed limit = false /\ Limit.status limit = 429) /\
  (POST Scenario.all_answer Scenario.ask Scenario.at_limit).1
  = inr {| body := {| role := "error";
                      content := Some "AI usage limit reached. Get full access when we launch." |};
           status := 429 |} /\
  store (POST Scenario.all_answer Scenario.ask Scenario.at_limit).2
  = store Scenario.at_limit /\
  usage (POST Scenario.all_answer Scenario.ask Scenario.at_limit).2 Scenario.ask
  = usage Scenario.at_limit Scenario.ask /\
  attempts (effects (POST Scenario.all_answer Scenario.ask) Scenario.at_limit) = [] /\
  filter quota_write
    (effects (POST Scenario.all_answer Scenario.ask) Scenario.at_limit) = [].
Proof.
  assert (Hge : IP_LIMIT <= usage Scenario.at_limit Scenario.ask)
    by (vm_compute; discriminate).
  exact (conj Hge
           (proj1 (C5_quota_exceeded Scenario.all_answer Scenario.ask
                     Scenario.at_limit) Hge)).
Defined.

(** Among the calls of a dispatch only the last can have resolved. *)
Lemma resolved_is_last (failed : list (string * string)) key key' data data' :
  (key, resolved data) ∈ (refused <$> failed) ++ [(key', resolved data')] ->
  key = key' /\ data = data'.
Proof.
  intros [(kc & Hkc & _)%list_elem_of_fmap | Hl%list_elem_of_singleton]%elem_of_app.
  - discriminate Hkc.
  - now injection Hl as -> ->.
Qed.

Lemma not_resolved_refused (failed : list (string * string)) key data :
  (key, resolved data) ∈ refused <$> failed -> False.
Proof. intros (kc & Hkc & _)%list_elem_of_fmap. discriminate Hkc. Qed.

(** Brings a resolved call found among the effects of a run down to the
    resolved call of its dispatch, or to a contradiction. *)
Ltac find_resolved Hin :=
  revert Hin; read_trace;
  try match goal with
      | Hd : dispatched _ _ _ _ (inr _) _ |- _ =>
          let Ha := fresh "Ha" in
          destruct (dispatched_resolved _ _ _ _ _ _ Hd) as (? & ? & Ha);
          rewrite Ha
      | Hd : dispatched _ _ _ _ (inl _) _ |- _ =>
          let Ha := fresh "Ha" in
          destruct (dispatched_attempts _ _ _ _ _ _ Hd) as (? & _ & Ha);
          rewrite Ha
      end;
  intros Hin;
  try (apply elem_of_nil in Hin; contradiction);
  try (apply not_resolved_refused in Hin; contradiction);
  try (apply resolved_is_last in Hin; destruct Hin as [-> ->]).

(** C4.  When a call of the request resolves with a reply, the gateway
    answers 200 with that reply and the client's count goes up by exactly
    one, by exactly one command to the store.  The quota check decides
    whether the window is new (no live record, or one that counts zero): if
    it is, the record is set to count 1 and expires one window from now; if
    it is not, the count of the live record is incremented and its expiry
    stays what it was.  No other record changes. *)
Theorem C4_reply_costs_one (E : Env) (req : Request) (w : World)
    (key : string) (data : option Completion) :
  (key, resolved data) ∈ attempts (effects (POST E req) w) ->
  Boolean (reply_text data) = true ->
  exists reply limit w1,
    reply_text data = Some reply /\
    (POST E req w).1
    = inr {| body := {| role := "assistant"; content := Some reply |};
             status := 200 |} /\
    usage (POST E req w).2 req = usage w req + 1 /\
    checkRateLimit req w = (inr limit, w1) /\
    (lookup_live w (usage_key req) = None -> Limit.new limit = true) /\
    (if Limit.new limit then
       store (POST E req w).2 !! usage_key req
       = Some {| count := 1; expiry := Some (clock w + windowDuration) |} /\
       filter quota_write (effects (POST E req) w)
       = [redis_set (usage_key req) 1 windowDuration]
     else
       exists r,
         lookup_live w (usage_key req) = Some r /\
         store (POST E req w).2 !! usage_key req
         = Some {| count := count r + 1; expiry := expiry r |} /\
         filter quota_write (effects (POST E req) w) = [redis_incr (usage_key req)]) /\
    (forall other, other <> usage_key req ->
       store (POST E req w).2 !! other = store w !! other).
Proof.
  intros Hin Hreply.
  run_POST E req w; find_resolved Hin.
  - discriminate Hreply.
  - unfold no_reply in *. rewrite Hreply in *. discriminate.
  - exists reply. eexists _, _. rewrite checkRateLimit_run.
    match goal with Hg : ge_limit _ = false |- _ => rewrite Hg end.
    cbn [Limit.new].
    repeat split; auto using usage_committed.
    + unfold used. now intros ->.
    + match goal with Hs : store w' = _ |- _ => rewrite Hs, lookup_insert_eq end.
      erewrite dispatched_no_quota_write by eassumption.
      cbn [Limit.new app]. unfold committed, commit_effect, used.
      destruct (lookup_live w (usage_key req)) as [r|] eqn:Hr; simpl.
      * destruct (count r) eqn:Hc; simpl; auto;
          exists r; rewrite Hc; auto.
      * auto.
    + intros other Hne.
      match goal with Hs : store w' = _ |- _ => rewrite Hs end.
      now apply lookup_insert_ne.
Qed.

Lemma C4_reply_costs_one_witness :
  (Scenario.K2, resolved Scenario.hello)
    ∈ attempts (effects (POST Scenario.first_fails Scenario.ask) Scenario.regular) /\
  Boolean (reply_text Scenario.hello) = true /\
  exists reply limit w1,
    reply_text Scenario.hello = Some reply /\
    (POST Scenario.first_fails Scenario.ask Scenario.regular).1
    = inr {| body := {| role := "assistant"; content := Some reply |};
             status := 200 |} /\
    usage (POST Scenario.first_fails Scenario.ask Scenario.regular).2 Scenario.ask
    = usage Scenario.regular Scenario.ask + 1 /\
    checkRateLimit Scenario.ask Scenario.regular = (inr limit, w1) /\
    (lookup_live Scenario.regular (usage_key Scenario.ask) = None ->
     Limit.new limit = true) /\
    (if Limit.new limit then
       store (POST Scenario.first_fails Scenario.ask Scenario.regular).2
         !! usage_key Scenario.ask
       = Some {| count := 1;
                 expiry := Some (clock Scenario.regular + windowDuration) |} /\
       filter quota_write
         (effects (POST Scenario.first_fails Scenario.ask) Scenario.regular)
       = [redis_set (usage_key Scenario.ask) 1 windowDuration]
     else
       exists r,
         lookup_live Scenario.regular (usage_key Scenario.ask) = Some r /\
         store (POST Scenario.first_fails Scenario.ask Scenario.regular).2
           !! usage_key Scenario.ask
         = Some {| count := count r + 1; expiry := expiry r |} /\
         filter quota_write
           (effects (POST Scenario.first_fails Scenario.ask) Scenario.regular)
         = [redis_incr (usage_key Scenario.ask)]) /\
    (forall other, other <> usage_key Scenario.ask ->
       store (POST Scenario.first_fails Scenario.ask Scenario.regular).2 !! other
       = store Scenario.regular !! other).
Proof.
  assert (Hin : (Scenario.K2, resolved Scenario.hello)
                  ∈ attempts (effects (POST Scenario.first_fails Scenario.ask)
                                Scenario.regular))
    by (vm_compute; apply list_elem_of_further, list_elem_of_here).
  assert (Hreply : Boolean (reply_text Scenario.hello) = true) by reflexivity.
  exact (conj Hin (conj Hreply
           (C4_reply_costs_one Scenario.first_fails Scenario.ask Scenario.regular
              Scenario.K2 Scenario.hello Hin Hreply))).
Defined.

(** A resolved call without a reply, whatever its body: the run ends with
    it, in the payload [No response received], or in the payload of status
    500 when the body is [null] and reading it throws. *)
Lemma resolved_without_reply (E : Env) (req : Request) (w : World)
    (key : string) (data : option Completion) :
  (key, resolved data) ∈ attempts (effects (POST E req) w) ->
  no_reply (reply_text data) = true ->
  (exists failed,
     attempts (effects (POST E req) w)
     = (refused <$> failed) ++ [(key, resolved data)]) /\
  (POST E req w).1
  = inr (match data with Some _ => no_response | None => internal_error end) /\
  store (POST E req w).2 = store w /\
  usage (POST E req w).2 req = usage w req /\
  filter quota_write (effects (POST E req) w) = [].
Proof.
  intros Hin Hno.
  run_POST E req w; find_resolved Hin.
  - repeat split; eauto using usage_unchanged.
    erewrite dispatched_no_quota_write by eassumption. reflexivity.
  - repeat split; eauto using usage_unchanged.
    erewrite dispatched_no_quota_write by eassumption. reflexivity.
  - congruence.
Qed.

(** C8.  A call that resolves with a body that holds no reply is the result
    of the dispatch, not a failure of its credential: it is the last call of
    the request, every call before it was rejected, and no further
    credential is tried.  The caller is answered with the error payload
    [No response received]; the store and the client's count are left as
    they were.  Only a rejected call is followed up: after it either the
    next credential is called or every credential of the pool has been.
    Whatever a run does, its answer is one of the five payloads of the
    handler, and those hold nothing of a rejected call. *)
Theorem C8_reply_without_message (E : Env) (req : Request) (w : World) :
  (forall key d,
     (key, resolved (Some d)) ∈ attempts (effects (POST E req) w) ->
     no_reply (reply_text (Some d)) = true ->
     (exists failed,
        attempts (effects (POST E req) w)
        = (refused <$> failed) ++ [(key, resolved (Some d))]) /\
     (POST E req w).1
     = inr {| body := {| role := "error"; content := Some "No response received" |};
              status := 200 |} /\
     store (POST E req w).2 = store w /\
     usage (POST E req w).2 req = usage w req /\
     filter quota_write (effects (POST E req) w) = []) /\
  (forall i key cause,
     attempts (effects (POST E req) w) !! i = Some (key, rejected cause) ->
     (S i < length (attempts (effects (POST E req) w)))%nat \/
     (attempts (effects (POST E req) w)).*1 ≡ₚ keys E) /\
  (forall response, (POST E req w).1 = inr response ->
     response = quota_exceeded \/ response = no_messages \/
     response = internal_error \/ response = no_response \/
     exists key d reply,
       (key, resolved (Some d)) ∈ attempts (effects (POST E req) w) /\
       reply_text (Some d) = Some reply /\ response = answered reply).
Proof.
  split; [|split].
  - intros key d Hin Hno.
    exact (resolved_without_reply E req w key (Some d) Hin Hno).
  - intros i key cause.
    run_POST E req w; read_trace;
      try (rewrite lookup_nil; discriminate);
      match goal with
      | Hd : dispatched _ _ _ _ _ _ |- _ =>
          apply dispatched_attempts in Hd; revert Hd
      end.
    + intros (failed & -> & ->) _. right.
      rewrite refused_keys. now symmetry.
    + intros (failed & k & rest & _ & ->) Hcall. left.
      apply lookup_snoc_Some in Hcall as [[Hlt _]|[_ [=]]].
      rewrite length_app. simpl. lia.
    + intros (failed & k & rest & _ & ->) Hcall. left.
      apply lookup_snoc_Some in Hcall as [[Hlt _]|[_ [=]]].
      rewrite length_app. simpl. lia.
    + intros (failed & k & rest & _ & ->) Hcall. left.
      apply lookup_snoc_Some in Hcall as [[Hlt _]|[_ [=]]].
      rewrite length_app. simpl. lia.
  - intros response.
    run_POST E req w; intros [= <-]; auto 6.
    do 4 right.
    match goal with
    | Hd : dispatched _ _ _ _ (inr _) _ |- _ =>
        destruct (dispatched_resolved _ _ _ _ _ _ Hd) as (failed & key & Ha)
    end.
    exists key, d, reply. repeat split; auto.
    read_trace. rewrite Ha. apply elem_of_app. right. apply list_elem_of_here.
Qed.

Lemma C8_reply_without_message_witness :
  (Scenario.K1, resolved Scenario.no_choices)
    ∈ attempts (effects (POST Scenario.first_is_mute Scenario.ask) Scenario.regular) /\
  no_reply (reply_text Scenario.no_choices) = true /\
  (exists failed,
     attempts (effects (POST Scenario.first_is_mute Scenario.ask) Scenario.regular)
     = (refused <$> failed) ++ [(Scenario.K1, resolved Scenario.no_choices)]) /\
  (POST Scenario.first_is_mute Scenario.ask Scenario.regular).1
  = inr {| body := {| role := "error"; content := Some "No response received" |};
           status := 200 |} /\
  store (POST Scenario.first_is_mute Scenario.ask Scenario.regular).2
  = store Scenario.regular /\
  usage (POST Scenario.first_is_mute Scenario.ask Scenario.regular).2 Scenario.ask
  = usage Scenario.regular Scenario.ask /\
  filter quota_write
    (effects (POST Scenario.first_is_mute Scenario.ask) Scenario.regular) = [].
Proof.
  assert (Hin : (Scenario.K1, resolved Scenario.no_choices)
                  ∈ attempts (effects (POST Scenario.first_is_mute Scenario.ask)
                                Scenario.regular))
    by (vm_compute; apply list_elem_of_here).
  assert (Hno : no_reply (reply_text Scenario.no_choices) = true) by reflexivity.
  exact (conj Hin (conj Hno
           (proj1 (C8_reply_without_message Scenario.first_is_mute Scenario.ask
                     Scenario.regular)
              Scenario.K1 {| choices := Some [] |} Hin Hno))).
Defined.

(** C8, as the specification words it, fails when the first credential is
    answered 2xx without an assistant message while the second would have
    answered: the dispatch makes that one call and never tries the second
    credential, and the caller is told [No response received]. *)
Lemma C8_counterexample :
  keys Scenario.first_is_mute = [Scenario.K1; Scenario.K2] /\
  attempts (effects (POST Scenario.first_is_mute Scenario.ask) Scenario.regular)
  = [(Scenario.K1, resolved Scenario.no_choices)] /\
  (POST Scenario.first_is_mute Scenario.ask Scenario.regular).1
  = inr {| body := {| role := "error"; content := Some "No response received" |};
           status := 200 |} /\
  provider Scenario.first_is_mute 1 Scenario.K2 (chatHistory [Scenario.hi])
  = resolved Scenario.hello.
Proof. repeat split; vm_compute; reflexivity. Qed.

(** ** The conversation sent upstream *)

Lemma slice_last_spec {A} (n : nat) (array : list A) :
  array = take (length array - n) array ++ slice_last n array /\
  length (slice_last n array) = Nat.min n (length array).
Proof.
  unfold slice_last. split.
  - symmetry. apply take_drop.
  - rewrite length_drop. lia.
Qed.

(** C9.  Every upstream call of a request carries the system instruction
    followed by the last five messages of the request, or by all of them
    when there are at most five: the messages of the request are some
    dropped oldest ones followed by exactly the retained ones, in their
    order.  A request from a client under its quota, with a pool that is not
    empty, does make such a call. *)
Theorem C9_conversation_sent (E : Env) (req : Request) (w : World)
    (payload : Payload) (msgs : list ChatMessage) :
  json req = Some payload -> messages payload = Some msgs ->
  (forall sent, sent ∈ omap sent_upstream (effects (POST E req) w) ->
     sent = systemPrompt :: slice_last 5 msgs) /\
  (exists dropped,
     msgs = dropped ++ slice_last 5 msgs /\
     length (slice_last 5 msgs) = Nat.min 5 (length msgs)) /\
  (usage w req < IP_LIMIT -> keys E <> [] ->
   omap sent_upstream (effects (POST E req) w) <> []).
Proof.
  intros Hjson Hmsgs. split; [|split].
  - intros sent.
    run_POST E req w; try congruence; read_trace;
      try (intros ?%elem_of_nil; contradiction);
      replace msgs with msgs0 by congruence;
      eauto using dispatched_sent.
  - destruct (slice_last_spec 5 msgs) as [Hd Hl]. eauto.
  - intros Hlt%ge_limit_usage Hpool.
    run_POST E req w; try congruence; read_trace;
      match goal with
      | Hd : dispatched _ _ _ _ _ _ |- _ => revert Hd; simpl
      end.
    + intros (_ & failed & -> & ->). rewrite sent_failures.
      destruct failed; [|discriminate].
      match goal with Hp : keys E ≡ₚ _ |- _ => apply Permutation_nil_r in Hp end.
      contradiction.
    + intros (failed & key & rest & _ & ->). rewrite omap_app. simpl.
      intros [_ [=]]%app_eq_nil.
    + intros (failed & key & rest & _ & ->). rewrite omap_app. simpl.
      intros [_ [=]]%app_eq_nil.
    + intros (failed & key & rest & _ & ->). rewrite omap_app. simpl.
      intros [_ [=]]%app_eq_nil.
Qed.

Lemma C9_conversation_sent_witness :
  json (Scenario.request (Some (Scenario.turn <$> seq 0 8)))
  = Some {| messages := Some (Scenario.turn <$> seq 0 8) |} /\
  (forall sent,
     sent ∈ omap sent_upstream
              (effects (POST Scenario.first_fails
                          (Scenario.request (Some (Scenario.turn <$> seq 0 8))))
                 Scenario.regular) ->
     sent = systemPrompt :: slice_last 5 (Scenario.turn <$> seq 0 8)) /\
  (exists dropped,
     Scenario.turn <$> seq 0 8 = dropped ++ slice_last 5 (Scenario.turn <$> seq 0 8) /\
     length (slice_last 5 (Scenario.turn <$> seq 0 8))
     = Nat.min 5 (length (Scenario.turn <$> seq 0 8))) /\
  omap sent_upstream
    (effects (POST Scenario.first_fails
                (Scenario.request (Some (Scenario.turn <$> seq 0 8))))
       Scenario.regular) <> [].
Proof.
  assert (Hlt : usage Scenario.regular
                  (Scenario.request (Some (Scenario.turn <$> seq 0 8))) < IP_LIMIT)
    by (vm_compute; reflexivity).
  assert (Hpool : keys Scenario.first_fails <> []) by discriminate.
  pose proof (C9_conversation_sent Scenario.first_fails
                (Scenario.request (Some (Scenario.turn <$> seq 0 8)))
                Scenario.regular
                {| messages := Some (Scenario.turn <$> seq 0 8) |}
                (Scenario.turn <$> seq 0 8) eq_refl eq_refl) as (Hsent & Hcut & Hcall).
  exact (conj eq_refl (conj Hsent (conj Hcut (Hcall Hlt Hpool)))).
Defined.

(** ** The scenarios of the specification, run *)

(** [K1] is refused and [K2] answers: the caller gets the answer and the
    client's count goes from 3 to 4, its window unchanged. *)
Example scenario_failover :
  POST Scenario.first_fails Scenario.ask Scenario.regular
  = (inr {| body := {| role := "assistant"; content := Some "Hello" |};
            status := 200 |},
     (POST Scenario.first_fails Scenario.ask Scenario.regular).2) /\
  attempts (effects (POST Scenario.first_fails Scenario.ask) Scenario.regular)
  = [(Scenario.K1, rejected Scenario.unauthorized);
     (Scenario.K2, resolved Scenario.hello)] /\
  store (POST Scenario.first_fails Scenario.ask Scenario.regular).2
  = {[ "AIDemoUsage:203.0.113.7" := {| count := 4; expiry := Some 5000 |} ]}.
Proof. repeat split; vm_compute; reflexivity. Qed.

(** A client never seen starts a window of two days with its first answer. *)
Example scenario_new_window :
  store (POST Scenario.all_answer Scenario.ask Scenario.newcomer).2
  = {[ "AIDemoUsage:203.0.113.7" := {| count := 1; expiry := Some 173800 |} ]}.
Proof. vm_compute. reflexivity. Qed.

(** The conversation sent for eight messages: the instruction and the last
    five. *)
Example scenario_truncation :
  slice_last 5 (Scenario.turn <$> seq 0 8) = Scenario.turn <$> seq 3 5.
Proof. reflexivity. Qed.

(** A window that has run out counts as no record. *)
Example scenario_expired_window :
  used {| store := store Scenario.at_limit; clock := 5000; trace := [];
          random_calls := 0; http_calls := 0 |} Scenario.ask = None.
Proof. vm_compute. reflexivity. Qed.

Example getIP_two_hops :
  getIP {| x_forwarded_for := Some " 203.0.113.7 , 10.0.0.1"; json := None |}
  = "203.0.113.7".
Proof. reflexivity. Qed.

(** A draw on which rounding the product decides the index: six times
    [7505999378950826 / 2^53] is four units short of [5 * 2^53] over [2^53],
    half way between two doubles, and rounds up to 5. *)
Example floor_of_product_rounds :
  floor_of_product 7505999378950826 6 = 5%nat /\
  N.to_nat (7505999378950826 * 6 / 2 ^ 53)%N = 4%nat.
Proof. split; vm_compute; reflexivity. Qed.

(** With every draw at zero the shuffle of two credentials swaps them. *)
Example shuffle_swaps :
  (shuffle {| AI_API_KEY_1 := None; AI_API_KEY_2 := None; AI_API_KEY_3 := None;
              AI_API_KEY_4 := None; AI_API_KEY_5 := None; AI_API_KEY_6 := None;
              AI_MODEL := None; UPSTASH_REDIS_REST_URL := None;
              Math_random := fun _ => 0%N;
              provider := fun _ _ _ => rejected "no key" |}
     [Scenario.K1; Scenario.K2] Scenario.newcomer).1
  = inr [Scenario.K2; Scenario.K1].
Proof. vm_compute. reflexivity. Qed.

(** * More of the code

    Properties of the rest of [getRotatedKey.ts], of [shuffle] and
    [fetchWithRotatedKey] on their own, and of the handler beyond the
    statements above. *)

(** ** The credential pool *)

Lemma omap_Boolean_sublist (l : list (option string)) :
  Some <$> omap (fun x => if Boolean x then x else None) l `sublist_of` l.
Proof.
  induction l as [|[[|c s]|] l IH]; simpl.
  - constructor.
  - now apply sublist_cons.
  - now apply sublist_skip.
  - now apply sublist_cons.
Qed.

Lemma keys_at_most_six (E : Env) : (length (keys E) <= 6)%nat.
Proof.
  pose proof (omap_Boolean_sublist (configured E)) as Hsub.
  apply sublist_length in Hsub. now rewrite length_fmap in Hsub.
Qed.

(** X1.  The pool holds exactly the configured values that are present and
    not empty, in the order of their variables: a credential is in the pool
    if and only if it is not the empty string and one of the six variables
    holds it; the pool is the six values with some left out, in order; so
    it has at most six entries. *)
Theorem keys_configured (E : Env) :
  (forall key, key ∈ keys E <->
     key <> EmptyString /\ Some key ∈ configured E) /\
  Some <$> keys E `sublist_of` configured E /\
  (length (keys E) <= 6)%nat.
Proof.
  assert (Hsub : Some <$> keys E `sublist_of` configured E)
    by apply omap_Boolean_sublist.
  split; [|split]; [|exact Hsub|].
  - intros key. unfold keys. fold (configured E).
    rewrite list_elem_of_omap. split.
    + intros (x & Hx & Hk). destruct x as [[|c s]|]; simplify_eq/=.
      split; [discriminate|exact Hx].
    + intros [Hne Hin]. exists (Some key). split; [exact Hin|].
      destruct key; [contradiction|reflexivity].
  - apply keys_at_most_six.
Qed.

(** X2.  [getRotatedKey] draws one number and does nothing else.  From a
    pool that is not empty it returns one of its credentials; from an empty
    pool it returns [undefined]. *)
Theorem getRotatedKey_in_pool (E : Env) (w : World) :
  exists r w',
    getRotatedKey E w = (inr r, w') /\
    store w' = store w /\ trace w' = trace w /\
    random_calls w' = S (random_calls w) /\
    (keys E = [] -> r = None) /\
    (keys E <> [] -> exists key, r = Some key /\ key ∈ keys E).
Proof.
  unfold getRotatedKey, bind, Math_floor_random, ret. cbv beta iota.
  eexists _, _. split; [reflexivity|]. cbn [store trace random_calls].
  repeat split.
  - intros ->. reflexivity.
  - intros Hpool.
    assert (Hlen : (0 < length (keys E))%nat)
      by (destruct (keys E); [contradiction|simpl; lia]).
    destruct (Math_floor_random_lt E (length (keys E)) w Hlen) as (j & Hj & Hlt).
    unfold Math_floor_random in Hj. cbn [fst] in Hj. injection Hj as Hj.
    rewrite Hj.
    destruct (lookup_lt_is_Some_2 (keys E) j Hlt) as [key Hkey].
    exists key. split; [exact Hkey|]. eapply list_elem_of_lookup_2, Hkey.
Qed.

(** The draw that selects position [i] of [n]: the least numerator [u] with
    [u / 2^53 * n >= i]. *)
Lemma draw_for_index (n i : nat) :
  (i < n <= 6)%nat ->
  let u := ((N.of_nat i * 2 ^ 53 + N.of_nat n - 1) / N.of_nat n)%N in
  (u mod 2 ^ 53 = u)%N /\ floor_of_product u n = i.
Proof.
  intros [Hi Hn].
  do 7 (destruct n as [|n];
        [ do 7 (destruct i as [|i];
                [ first [ lia | vm_compute; split; reflexivity ] | ]);
          lia
        | ]).
  lia.
Qed.

(** X3.  No credential is out of reach of [getRotatedKey]: for every
    position of the pool there is a value of [Math.random] on which the
    credential at that position is the one returned. *)
Theorem getRotatedKey_reaches_every_key (E : Env) (i : nat) (key : string) :
  keys E !! i = Some key ->
  exists u : N,
    forall w, Math_random E (random_calls w) = u ->
              (getRotatedKey E w).1 = inr (Some key).
Proof.
  intros Hkey.
  assert (Hi : (i < length (keys E) <= 6)%nat).
  { split; [eapply lookup_lt_Some, Hkey|apply keys_at_most_six]. }
  destruct (draw_for_index _ _ Hi) as [Hmod Hidx].
  eexists. intros w Hu.
  unfold getRotatedKey, bind, Math_floor_random, ret. cbv beta iota. cbn [fst].
  rewrite Hu, Hmod, Hidx, Hkey. reflexivity.
Qed.

Lemma getRotatedKey_reaches_every_key_witness :
  keys Scenario.both_fail !! 1%nat = Some Scenario.K2 /\
  exists u : N,
    forall w, Math_random Scenario.both_fail (random_calls w) = u ->
              (getRotatedKey Scenario.both_fail w).1 = inr (Some Scenario.K2).
Proof.
  exact (conj eq_refl
           (getRotatedKey_reaches_every_key Scenario.both_fail 1 Scenario.K2 eq_refl)).
Defined.

(** ** The shuffle, on any array *)

Lemma shuffle_from_draws {A} (E : Env) (i : nat) (array : list A) (w : World) :
  exists order w',
    shuffle_from E i array w = (inr order, w') /\
    array ≡ₚ order /\
    random_calls w' = (random_calls w + i)%nat /\
    store w' = store w /\ clock w' = clock w /\
    trace w' = trace w /\ http_calls w' = http_calls w.
Proof.
  revert array w. induction i as [|i IH]; intros array w; simpl.
  - exists array, w. repeat split; auto.
  - unfold bind, Math_floor_random. simpl.
    match goal with |- context [shuffle_from E i ?a ?v] =>
      destruct (IH a v) as (order & w' & -> & Hp & Hr & Hs & Hc & Ht & Hh) end.
    exists order, w'. simpl in Hr. repeat split; auto; [|lia].
    rewrite <- Hp. symmetry. apply swap_Permutation.
Qed.

(** X4.  [shuffle] rearranges any array: the result holds the same elements,
    each as often as the array, and as many of them.  It draws one number for
    every element but the first and has no other effect; an array of at
    most one element comes back as it is, without a draw. *)
Theorem shuffle_rearranges {A} (E : Env) (array : list A) (w : World) :
  exists shuffled w',
    shuffle E array w = (inr shuffled, w') /\
    array ≡ₚ shuffled /\
    length shuffled = length array /\
    random_calls w' = (random_calls w + (length array - 1))%nat /\
    store w' = store w /\ clock w' = clock w /\ trace w' = trace w /\
    ((length array <= 1)%nat -> shuffled = array /\ random_calls w' = random_calls w).
Proof.
  destruct (shuffle_from_draws E (length array - 1) array w)
    as (order & w' & Hrun & Hp & Hr & Hs & Hc & Ht & _).
  exists order, w'. repeat split; auto.
  - now rewrite <- Hp.
  - destruct array as [|a [|b l]]; simpl in *; try lia.
    + now apply Permutation_nil_l in Hp.
    + now apply Permutation_singleton_l in Hp.
  - lia.
Qed.

(** ** The dispatcher, on its own *)

(** X5.  From an empty pool a dispatch throws at once: no number is drawn,
    no call is made, nothing is logged, and the world is left exactly as it
    was. *)
Theorem fetch_empty_pool (E : Env) (msgs : list ChatMessage)
    (maxTokens : option Z) (w : World) :
  keys E = [] ->
  fetchWithRotatedKey E msgs maxTokens w
  = (inl (Error "All keys failed. Please try again later."), w).
Proof.
  intros Hpool. unfold fetchWithRotatedKey, shuffle, bind. rewrite Hpool.
  reflexivity.
Qed.

Lemma fetch_empty_pool_witness :
  keys Setup.no_keys = [] /\
  fetchWithRotatedKey Setup.no_keys [Scenario.hi] None Scenario.newcomer
  = (inl (Error "All keys failed. Please try again later."), Scenario.newcomer).
Proof.
  exact (conj eq_refl
           (fetch_empty_pool Setup.no_keys [Scenario.hi] None Scenario.newcomer
              eq_refl)).
Defined.

Lemma failures_dispatch_effects (E : Env) msgs budget failed :
  (forall kc, kc ∈ failed -> kc.1 ∈ keys E) ->
  Forall (dispatch_effect E msgs budget) (failures E msgs budget failed).
Proof.
  induction failed as [|[key cause] failed IH]; intros Hin.
  - constructor.
  - rewrite failures_cons. apply Forall_app. split.
    + assert (Hk : key ∈ keys E) by (apply (Hin (key, cause)); left).
      unfold failure. simpl. repeat constructor; exists key; split; eauto.
    + apply IH. intros kc Hkc. apply Hin. now right.
Qed.

(** X6.  A dispatch touches neither the store nor the clock, and all it
    leaves in the trace are calls to the provider and warnings, each for a
    credential of the pool.  Every call carries the configured model, the
    conversation it was given and one token budget: the [maxTokens] it was
    given, or 5000 when that is absent or zero. *)
Theorem fetch_effects (E : Env) (msgs : list ChatMessage)
    (maxTokens : option Z) (w : World) :
  Forall (dispatch_effect E msgs (or_number maxTokens 5000))
    (effects (fetchWithRotatedKey E msgs maxTokens) w) /\
  store (fetchWithRotatedKey E msgs maxTokens w).2 = store w /\
  clock (fetchWithRotatedKey E msgs maxTokens w).2 = clock w /\
  (forall n, maxTokens = Some n -> n <> 0 -> or_number maxTokens 5000 = n) /\
  (maxTokens = None \/ maxTokens = Some 0 -> or_number maxTokens 5000 = 5000).
Proof.
  destruct (fetch_run E msgs maxTokens w)
    as (r & w' & order & evs & Hf & _ & Hp & Hs & Hc & Ht & Hd).
  rewrite (effects_run _ _ _ _ _ Hf Ht), Hf. cbn [snd].
  repeat split; auto.
  - assert (Hfailed : forall failed rest,
               order = failed.*1 ++ rest ->
               Forall (dispatch_effect E msgs (or_number maxTokens 5000))
                 (failures E msgs (or_number maxTokens 5000) failed)).
    { intros failed rest Ho. apply failures_dispatch_effects.
      intros kc Hkc. rewrite Hp, Ho. apply elem_of_app. left.
      now apply list_elem_of_fmap_2. }
    destruct r as [e|data]; simpl in Hd.
    + destruct Hd as (_ & failed & Ho & ->).
      apply (Hfailed failed []). now rewrite app_nil_r.
    + destruct Hd as (failed & key & rest & Ho & ->).
      apply Forall_app. split; [now apply (Hfailed failed (key :: rest))|].
      repeat constructor. exists key. split; eauto.
      rewrite Hp, Ho. apply elem_of_app. right. left.
  - intros n -> Hn. destruct n; [contradiction|reflexivity|reflexivity].
  - intros [-> | ->]; reflexivity.
Qed.

(** X7.  When the provider answers the next call whatever the credential,
    a dispatch over a pool that is not empty makes exactly one call, logs
    nothing, and returns the body of that call. *)
Theorem fetch_first_call_wins (E : Env) (msgs : list ChatMessage)
    (maxTokens : option Z) (w : World) :
  keys E <> [] ->
  (forall key, key ∈ keys E ->
     exists data, provider E (http_calls w) key msgs = resolved data) ->
  exists key data,
    key ∈ keys E /\
    effects (fetchWithRotatedKey E msgs maxTokens) w
    = [axios_post key (AI_MODEL E) msgs (or_number maxTokens 5000) (resolved data)] /\
    (fetchWithRotatedKey E msgs maxTokens w).1 = inr data.
Proof.
  intros Hpool Hanswers.
  destruct (shuffle_from_run E (length (keys E) - 1) (keys E) w)
    as (order & w1 & Hsh & Hp & _ & _ & Ht & Hh).
  destruct order as [|key rest].
  { apply Permutation_nil_r in Hp. contradiction. }
  assert (Hkey : key ∈ keys E) by (rewrite Hp; left).
  destruct (Hanswers key Hkey) as [data Hdata].
  exists key, data. split; [exact Hkey|].
  assert (Hrun : fetchWithRotatedKey E msgs maxTokens w
                 = (inr data,
                    {| store := store w1; clock := clock w1;
                       trace := trace w1 ++
                         [axios_post key (AI_MODEL E) msgs
                            (or_number maxTokens 5000) (resolved data)];
                       random_calls := random_calls w1;
                       http_calls := S (http_calls w1) |})).
  { unfold fetchWithRotatedKey, shuffle, bind. rewrite Hsh.
    cbn [try_keys]. unfold try_catch, axios_POST. rewrite Hh, Hdata.
    reflexivity. }
  split.
  - eapply effects_run; [exact Hrun|]. cbn [trace]. now rewrite Ht.
  - now rewrite Hrun.
Qed.

Lemma fetch_first_call_wins_witness :
  keys Scenario.all_answer <> [] /\
  exists key data,
    key ∈ keys Scenario.all_answer /\
    effects (fetchWithRotatedKey Scenario.all_answer [Scenario.hi] None)
      Scenario.newcomer
    = [axios_post key (AI_MODEL Scenario.all_answer) [Scenario.hi]
         (or_number None 5000) (resolved data)] /\
    (fetchWithRotatedKey Scenario.all_answer [Scenario.hi] None Scenario.newcomer).1
    = inr data.
Proof.
  assert (Hpool : keys Scenario.all_answer <> []) by discriminate.
  exact (conj Hpool
           (fetch_first_call_wins Scenario.all_answer [Scenario.hi] None
              Scenario.newcomer Hpool
              (fun key _ => ex_intro _ Scenario.hello eq_refl))).
Defined.

(** ** The client identifier, read back *)

Section Entries.

Import JsString.

#[local] Arguments String.append !s1 s2 : simpl nomatch.

Lemma all_append p (a b : string) : all p (a +:+ b) = all p a && all p b.
Proof.
  induction a as [|c a IH]; simpl; [reflexivity|].
  now rewrite IH, andb_assoc.
Qed.

Lemma white_no_comma (l : string) :
  all isWhiteSpace l = true -> all (fun c => negb (Ascii.eqb c ",")) l = true.
Proof.
  induction l as [|c l IH]; simpl; [reflexivity|].
  intros [Hc Hl]%andb_prop. rewrite (IH Hl), andb_true_r.
  destruct (Ascii.eqb_spec c ","); [subst; discriminate|reflexivity].
Qed.

Lemma split_whole sep (e : string) :
  all (fun c => negb (Ascii.eqb c sep)) e = true -> split sep e = [e].
Proof.
  induction e as [|c e IH]; simpl; [reflexivity|].
  intros [Hc He]%andb_prop. apply negb_true_iff in Hc.
  now rewrite Hc, (IH He).
Qed.

Lemma split_first sep (e rest : string) :
  all (fun c => negb (Ascii.eqb c sep)) e = true ->
  split sep (e +:+ String sep rest) = e :: split sep rest.
Proof.
  induction e as [|c e IH]; simpl.
  - now rewrite Ascii.eqb_refl.
  - intros [Hc He]%andb_prop. apply negb_true_iff in Hc.
    now rewrite Hc, (IH He).
Qed.

Lemma trimStart_white (l t : string) :
  all isWhiteSpace l = true -> trimStart (l +:+ t) = trimStart t.
Proof.
  induction l as [|c l IH]; simpl; [reflexivity|].
  intros [Hc Hl]%andb_prop. now rewrite Hc, (IH Hl).
Qed.

Lemma trimStart_clean (t : string) :
  (forall c, first t = Some c -> isWhiteSpace c = false) -> trimStart t = t.
Proof.
  destruct t as [|c t]; simpl; [reflexivity|].
  intros H. now rewrite (H c eq_refl).
Qed.

Lemma trimStart_all_white (l : string) :
  all isWhiteSpace l = true -> trimStart l = EmptyString.
Proof.
  induction l as [|c l IH]; simpl; [reflexivity|].
  intros [Hc Hl]%andb_prop. now rewrite Hc, (IH Hl).
Qed.

Lemma append_nil_r (s : string) : s +:+ EmptyString = s.
Proof. induction s as [|c s IH]; simpl; [reflexivity|]. now rewrite IH. Qed.

Lemma trimEnd_white (r : string) :
  all isWhiteSpace r = true -> trimEnd r = EmptyString.
Proof.
  induction r as [|c r IH]; simpl; [reflexivity|].
  intros [Hc Hr]%andb_prop. now rewrite (IH Hr), Hc.
Qed.

Lemma trimEnd_clean (s r : string) :
  (forall c, last s = Some c -> isWhiteSpace c = false) ->
  all isWhiteSpace r = true -> trimEnd (s +:+ r) = s.
Proof.
  intros Hlast Hr. induction s as [|c s IH]; simpl.
  - now apply trimEnd_white.
  - destruct s as [|d s].
    + simpl. rewrite (trimEnd_white r Hr). now rewrite (Hlast c eq_refl).
    + rewrite IH; [reflexivity|]. intros c' Hc'. apply Hlast. exact Hc'.
Qed.

(** X8.  Whatever identifier a caller puts first in [x-forwarded-for] is
    the identifier it is counted under: for an entry without a comma that
    neither starts nor ends with white space, a header made of that entry,
    with any white space around it, alone or followed by a comma and
    anything at all, gives exactly that entry.  (For the empty entry: a
    header that starts with a comma, or with white space only, is counted
    with the requests that have no header.) *)
Theorem getIP_first_entry (req : Request) (before entry after : string)
    (rest : option string) :
  all (fun c => negb (Ascii.eqb c ",")) entry = true ->
  (forall c, first entry = Some c -> isWhiteSpace c = false) ->
  (forall c, last entry = Some c -> isWhiteSpace c = false) ->
  all isWhiteSpace before = true -> all isWhiteSpace after = true ->
  x_forwarded_for req
  = Some (before +:+ entry +:+ after +:+
          match rest with Some r => String "," r | None => EmptyString end) ->
  getIP req = entry /\ usage_key req = "AIDemoUsage:" +:+ entry.
Proof.
  intros Hentry Hfirst Hlast Hbefore Hafter Hheader.
  assert (Hip : getIP req = entry); [|split; [exact Hip|unfold usage_key; now rewrite Hip]].
  unfold getIP. rewrite Hheader.
  set (padded := before +:+ entry +:+ after).
  assert (Hpadded : all (fun c => negb (Ascii.eqb c ",")) padded = true).
  { unfold padded. rewrite !all_append, Hentry, !white_no_comma by assumption.
    reflexivity. }
  assert (Htrim : trim padded = entry).
  { unfold trim, padded. rewrite trimStart_white by assumption.
    destruct entry as [|c e].
    - simpl. now rewrite trimStart_all_white.
    - rewrite trimStart_clean by (simpl; intros c' [= <-]; now apply Hfirst).
      now apply trimEnd_clean. }
  assert (Hh : before +:+ entry +:+ after +:+
               match rest with Some r => String "," r | None => EmptyString end
               = padded +:+
                 match rest with Some r => String "," r | None => EmptyString end)
    by (unfold padded; now rewrite !append_assoc).
  rewrite Hh.
  assert (Hor : forall h, or_string (Some h) EmptyString = h) by now intros [|].
  rewrite Hor.
  destruct rest as [r|].
  - rewrite split_first by assumption. simpl. exact Htrim.
  - rewrite append_nil_r, split_whole by assumption. simpl. exact Htrim.
Qed.

End Entries.

Lemma getIP_first_entry_witness :
  getIP {| x_forwarded_for := Some " 203.0.113.7 , 10.0.0.1"; json := None |}
  = "203.0.113.7" /\
  usage_key {| x_forwarded_for := Some " 203.0.113.7 , 10.0.0.1"; json := None |}
  = "AIDemoUsage:" +:+ "203.0.113.7".
Proof.
  apply (getIP_first_entry
           {| x_forwarded_for := Some " 203.0.113.7 , 10.0.0.1"; json := None |}
           " " "203.0.113.7" " " (Some " 10.0.0.1"));
    try reflexivity; intros c [= <-]; reflexivity.
Defined.

(** ** The handler, beyond the claims *)

Section Answers.

Variable E : Env.
Implicit Types (req : Request) (w : World).

Lemma is_answer_answered reply : is_answer (inr (answered reply)) = true.
Proof. reflexivity. Qed.

(** What one request does to the count of its client. *)
Lemma POST_usage_step req w :
  (if is_answer (POST E req w).1 then
     filter quota_write (effects (POST E req) w) = [commit_effect w req] /\
     usage w req < IP_LIMIT /\
     store (POST E req w).2 = <[usage_key req := committed w req]> (store w) /\
     usage (POST E req w).2 req = usage w req + 1
   else
     filter quota_write (effects (POST E req) w) = [] /\
     store (POST E req w).2 = store w /\
     usage (POST E req w).2 req = usage w req) /\
  clock (POST E req w).2 = clock w.
Proof.
  run_POST E req w; cbn [is_answer body role no_messages quota_exceeded
                           internal_error no_response answered NextResponse_json
                           String.eqb Ascii.eqb Bool.eqb];
    (split; [|assumption]);
    repeat split; auto using usage_unchanged, usage_committed;
    try (read_trace; erewrite ?dispatched_no_quota_write by eassumption;
         reflexivity).
  now apply ge_limit_usage.
Qed.

Lemma usage_same_key req req' w : usage_key req' = usage_key req -> usage w req' = usage w req.
Proof. unfold usage. now intros ->. Qed.

End Answers.

(** X9.  A window that has run out counts for nothing, whatever count the
    record holds: the client's count reads as zero, the quota check allows
    the request and marks the window new, and when the request is answered
    the record is replaced by count 1 with a window that starts now. *)
Theorem expired_window_restarts (E : Env) (req : Request) (w : World)
    (r : UsageRecord) (t : Z) :
  store w !! usage_key req = Some r -> expiry r = Some t -> t <= clock w ->
  usage w req = 0 /\
  (exists limit w1,
     checkRateLimit req w = (inr limit, w1) /\
     Limit.allowed limit = true /\ Limit.new limit = true) /\
  (forall reply, (POST E req w).1 = inr (answered reply) ->
     store (POST E req w).2 !! usage_key req
     = Some {| count := 1; expiry := Some (clock w + windowDuration) |} /\
     usage (POST E req w).2 req = 1).
Proof.
  intros Hr Ht Hle.
  assert (Hlive : lookup_live w (usage_key req) = None).
  { unfold lookup_live, live. rewrite Hr, Ht.
    destruct (Z.ltb_spec (clock w) t); [lia|reflexivity]. }
  assert (Hused : used w req = None) by (unfold used; now rewrite Hlive).
  assert (Husage : usage w req = 0) by (unfold usage; now rewrite Hlive).
  split; [exact Husage|]. split.
  - rewrite checkRateLimit_run, Hused. eexists _, _. repeat split.
  - intros reply Hanswer.
    pose proof (POST_usage_step E req w) as [Hstep _].
    rewrite Hanswer, is_answer_answered in Hstep.
    destruct Hstep as (_ & _ & Hstore & Hcount).
    rewrite Hstore, lookup_insert_eq, Hcount, Husage.
    unfold committed. rewrite Hused. split; reflexivity.
Qed.

Lemma expired_window_restarts_witness :
  store Setup.window_over !! usage_key Scenario.ask
  = Some {| count := 100; expiry := Some 5000 |} /\
  usage Setup.window_over Scenario.ask = 0 /\
  (exists limit w1,
     checkRateLimit Scenario.ask Setup.window_over = (inr limit, w1) /\
     Limit.allowed limit = true /\ Limit.new limit = true) /\
  (forall reply,
     (POST Scenario.all_answer Scenario.ask Setup.window_over).1
     = inr (answered reply) ->
     store (POST Scenario.all_answer Scenario.ask Setup.window_over).2
       !! usage_key Scenario.ask
     = Some {| count := 1;
               expiry := Some (clock Setup.window_over + windowDuration) |} /\
     usage (POST Scenario.all_answer Scenario.ask Setup.window_over).2 Scenario.ask
     = 1).
Proof.
  assert (Hr : store Setup.window_over !! usage_key Scenario.ask
               = Some {| count := 100; expiry := Some 5000 |})
    by (vm_compute; reflexivity).
  assert (Hle : 5000 <= clock Setup.window_over) by (vm_compute; discriminate).
  exact (conj Hr
           (expired_window_restarts Scenario.all_answer Scenario.ask
              Setup.window_over _ 5000 Hr eq_refl Hle)).
Defined.


(** X11.  A request is charged if and only if it is answered with a reply
    of the provider.  A run that ends in such an answer sends the store
    exactly one command that changes it, and the client's count goes up by
    one; any other run sends none and leaves the store as it was.  Either
    way the records of all other keys are untouched, no key disappears, and
    the clock is not moved. *)
Theorem POST_charges_answers_only (E : Env) (req : Request) (w : World) :
  (if is_answer (POST E req w).1 then
     (exists command, filter quota_write (effects (POST E req) w) = [command]) /\
     usage (POST E req w).2 req = usage w req + 1
   else
     filter quota_write (effects (POST E req) w) = [] /\
     store (POST E req w).2 = store w) /\
  (forall other, other <> usage_key req ->
     store (POST E req w).2 !! other = store w !! other) /\
  dom (store w) ⊆ dom (store (POST E req w).2) /\
  clock (POST E req w).2 = clock w.
Proof.
  pose proof (POST_usage_step E req w) as [Hstep Hclock].
  destruct (is_answer (POST E req w).1).
  - destruct Hstep as (Hq & _ & Hs & Hu).
    repeat split; eauto.
    + intros other Hne. rewrite Hs. now apply lookup_insert_ne.
    + rewrite Hs, dom_insert. set_solver.
  - destruct Hstep as (Hq & Hs & _).
    repeat split; auto; now rewrite Hs.
Qed.

(** X12.  The requests of one client never touch the count of another:
    whatever a run does, the count of every client that is counted under a
    different key is what it was. *)
Theorem POST_isolates_clients (E : Env) (req other : Request) (w : World) :
  usage_key other <> usage_key req ->
  usage (POST E req w).2 other = usage w other.
Proof.
  intros Hne.
  pose proof (POST_usage_step E req w) as [Hstep Hclock].
  unfold usage, lookup_live. rewrite Hclock.
  destruct (is_answer (POST E req w).1).
  - destruct Hstep as (_ & _ & -> & _). now rewrite lookup_insert_ne.
  - destruct Hstep as (_ & -> & _). reflexivity.
Qed.

Lemma POST_isolates_clients_witness :
  usage_key Setup.neighbour <> usage_key Scenario.ask /\
  usage (POST Scenario.all_answer Scenario.ask Scenario.regular).2 Setup.neighbour
  = usage Scenario.regular Setup.neighbour.
Proof.
  assert (Hne : usage_key Setup.neighbour <> usage_key Scenario.ask)
    by (vm_compute; discriminate).
  exact (conj Hne
           (POST_isolates_clients Scenario.all_answer Scenario.ask
              Setup.neighbour Scenario.regular Hne)).
Defined.

(** X13.  With no credential configured, a request that passes the quota
    check and carries messages is answered 500: the dispatch fails without
    a single upstream call, the failure is logged, and the client is not
    charged. *)
Theorem POST_without_credentials (E : Env) (req : Request) (w : World)
    (payload : Payload) (msgs : list ChatMessage) :
  keys E = [] ->
  json req = Some payload -> messages payload = Some msgs ->
  usage w req < IP_LIMIT ->
  (POST E req w).1
  = inr {| body := {| role := "error";
                      content := Some "Some internal error occurred. Please try again later." |};
           status := 500 |} /\
  effects (POST E req) w
  = [console_log_env (UPSTASH_REDIS_REST_URL E); redis_get (usage_key req);
     console_log_payload payload;
     console_error (Error "All keys failed. Please try again later.")] /\
  store (POST E req w).2 = store w.
Proof.
  intros Hpool Hjson Hmsgs Hlt%ge_limit_usage.
  run_POST E req w; try congruence;
    match goal with
    | Hp : keys E ≡ₚ _, Hd : dispatched _ _ _ _ _ _ |- _ =>
        rewrite Hpool in Hp; apply Permutation_nil_l in Hp; subst;
        simpl in Hd; revert Hd
    end.
  - intros (-> & failed & Hf & ->).
    symmetry in Hf. apply fmap_nil_inv in Hf. subst failed.
    replace payload0 with payload by congruence.
    repeat split; auto.
  - intros (failed & key & rest & Hf & _).
    now apply app_cons_not_nil in Hf.
  - intros (failed & key & rest & Hf & _).
    now apply app_cons_not_nil in Hf.
  - intros (failed & key & rest & Hf & _).
    now apply app_cons_not_nil in Hf.
Qed.

Lemma POST_without_credentials_witness :
  keys Setup.no_keys = [] /\
  usage Scenario.regular Scenario.ask < IP_LIMIT /\
  (POST Setup.no_keys Scenario.ask Scenario.regular).1
  = inr {| body := {| role := "error";
                      content := Some "Some internal error occurred. Please try again later." |};
           status := 500 |} /\
  effects (POST Setup.no_keys Scenario.ask) Scenario.regular
  = [console_log_env (UPSTASH_REDIS_REST_URL Setup.no_keys);
     redis_get (usage_key Scenario.ask);
     console_log_payload {| messages := Some [Scenario.hi] |};
     console_error (Error "All keys failed. Please try again later.")] /\
  store (POST Setup.no_keys Scenario.ask Scenario.regular).2
  = store Scenario.regular.
Proof.
  assert (Hlt : usage Scenario.regular Scenario.ask < IP_LIMIT)
    by (vm_compute; reflexivity).
  exact (conj eq_refl (conj Hlt
           (POST_without_credentials Setup.no_keys Scenario.ask Scenario.regular
              {| messages := Some [Scenario.hi] |} [Scenario.hi]
              eq_refl eq_refl eq_refl Hlt))).
Defined.

(** X14.  Over any sequence of requests of one client, served one after the
    other within a window, the client's count grows by exactly the number of
    requests that were answered with a reply.  A count within [IP_LIMIT]
    stays within it, so the client gets at most [IP_LIMIT] less its count
    answers, however many requests it makes and however many of them fail. *)
Theorem serve_within_budget (E : Env) (req : Request) (reqs : list Request)
    (w : World) :
  Forall (fun r => usage_key r = usage_key req) reqs ->
  usage (serve E reqs w).2 req
  = usage w req + Z.of_nat (length (filter is_answer (serve E reqs w).1)) /\
  (usage w req <= IP_LIMIT ->
   usage (serve E reqs w).2 req <= IP_LIMIT /\
   Z.of_nat (length (filter is_answer (serve E reqs w).1)) <= IP_LIMIT - usage w req).
Proof.
  intros Hkeys. revert w.
  induction Hkeys as [|r reqs Hr _ IH]; intros w.
  - simpl. split; [lia|]. intros Hle. split; simpl; lia.
  - cbn [serve].
    pose proof (POST_usage_step E r w) as [Hstep _].
    rewrite !(usage_same_key req r) in Hstep by assumption.
    destruct (POST E r w) as [x w1] eqn:HP. cbn [fst snd] in Hstep.
    specialize (IH w1).
    destruct (serve E reqs w1) as [xs w2] eqn:Hserve. cbn [fst snd] in *.
    rewrite filter_cons.
    destruct (is_answer x) eqn:Hx; simpl.
    + destruct Hstep as (_ & Hlt & _ & Hu).
      destruct IH as [IHu IHb]. rewrite Hu in *.
      split; [rewrite IHu; lia|]. intros _.
      destruct IHb as [IHb1 IHb2]; [lia|]. split; lia.
    + destruct Hstep as (_ & _ & Hu).
      destruct IH as [IHu IHb]. rewrite Hu in *.
      split; [exact IHu|]. exact IHb.
Qed.

Lemma serve_within_budget_witness :
  Forall (fun r => usage_key r = usage_key Scenario.ask)
    [Scenario.ask; Scenario.request None; Scenario.ask] /\
  usage (Scenario.world (Some 99)) Scenario.ask <= IP_LIMIT /\
  usage (serve Scenario.all_answer
           [Scenario.ask; Scenario.request None; Scenario.ask]
           (Scenario.world (Some 99))).2 Scenario.ask
  = usage (Scenario.world (Some 99)) Scenario.ask
    + Z.of_nat (length (filter is_answer
                          (serve Scenario.all_answer
                             [Scenario.ask; Scenario.request None; Scenario.ask]
                             (Scenario.world (Some 99))).1)) /\
  usage (serve Scenario.all_answer
           [Scenario.ask; Scenario.request None; Scenario.ask]
           (Scenario.world (Some 99))).2 Scenario.ask <= IP_LIMIT /\
  Z.of_nat (length (filter is_answer
                      (serve Scenario.all_answer
                         [Scenario.ask; Scenario.request None; Scenario.ask]
                         (Scenario.world (Some 99))).1))
  <= IP_LIMIT - usage (Scenario.world (Some 99)) Scenario.ask.
Proof.
  assert (Hkeys : Forall (fun r => usage_key r = usage_key Scenario.ask)
                    [Scenario.ask; Scenario.request None; Scenario.ask])
    by (repeat constructor).
  assert (Hle : usage (Scenario.world (Some 99)) Scenario.ask <= IP_LIMIT)
    by (vm_compute; discriminate).
  pose proof (serve_within_budget Scenario.all_answer Scenario.ask
                [Scenario.ask; Scenario.request None; Scenario.ask]
                (Scenario.world (Some 99)) Hkeys) as [Hcount Hbound].
  exact (conj Hkeys (conj Hle (conj Hcount (Hbound Hle)))).
Defined.

(** The last of the three requests above is refused: the first one took the
    client to its limit. *)
Example serve_to_the_limit :
  status <$> (omap (fun r => match r with inr response => Some response | inl _ => None end)
                (serve Scenario.all_answer
                   [Scenario.ask; Scenario.request None; Scenario.ask]
                   (Scenario.world (Some 99))).1)
  = [200; 429; 429].
Proof. vm_compute. reflexivity. Qed.

Lemma failures_no_read (E : Env) msgs budget failed key :
  redis_get key ∉ failures E msgs budget failed.
Proof.
  induction failed as [|kc failed IH].
  - apply not_elem_of_nil.
  - rewrite failures_cons. unfold failure.
    rewrite elem_of_app, !elem_of_cons, elem_of_nil.
    intros [[|[|[]]]|]; [discriminate|discriminate|contradiction].
Qed.

Lemma dispatched_no_read (E : Env) msgs budget order r evs key :
  dispatched E msgs budget order r evs -> redis_get key ∉ evs.
Proof.
  destruct r as [e|data]; simpl.
  - intros (_ & failed & _ & ->). apply failures_no_read.
  - intros (failed & k & rest & _ & ->).
    rewrite elem_of_app, elem_of_cons, elem_of_nil.
    intros [Hin|[|[]]]; [|discriminate].
    now apply failures_no_read in Hin.
Qed.

(** X15.  Within a run the store is read once, first, and written last: the
    effects of every run start with the log of the store's address and the
    read of the client's count, no further command reads the store, and a
    command that changes the store is the last effect of its run, so it
    comes after every upstream call of the run. *)
Theorem POST_reads_first_writes_last (E : Env) (req : Request) (w : World) :
  (exists rest,
     effects (POST E req) w
     = console_log_env (UPSTASH_REDIS_REST_URL E) :: redis_get (usage_key req) :: rest /\
     forall key, redis_get key ∉ rest) /\
  (forall before e after,
     effects (POST E req) w = before ++ e :: after ->
     quota_write e = true -> after = []).
Proof.
  assert (Hlast : forall (evs : list effect) (c : effect),
             filter quota_write evs = [] ->
             forall before e after,
               evs ++ [c] = before ++ e :: after ->
               quota_write e = true -> after = []).
  { intros evs c Hnone before e after Heq He.
    destruct after as [|a after _] using rev_ind; [reflexivity|].
    rewrite app_comm_cons, app_assoc in Heq.
    apply app_inj_tail in Heq as [-> _].
    rewrite filter_app, filter_cons in Hnone. rewrite He in Hnone. simpl in Hnone.
    now apply app_nil in Hnone as [_ [=]]. }
  assert (Hnone : forall (evs : list effect),
             filter quota_write evs = [] ->
             forall before e after,
               evs = before ++ e :: after -> quota_write e = true -> False).
  { intros evs Hn before e after -> He.
    rewrite filter_app, filter_cons, He in Hn. simpl in Hn.
    now apply app_nil in Hn as [_ [=]]. }
  split.
  - run_POST E req w; unfold prelude; simpl; eexists; (split; [reflexivity|]);
      intros key; rewrite ?elem_of_cons, ?elem_of_app, ?elem_of_cons, ?elem_of_nil;
      intros Hin;
      repeat match goal with
             | H : _ \/ _ |- _ => destruct H
             | H : False |- _ => destruct H
             | H : redis_get _ = commit_effect _ _ |- _ =>
                 unfold commit_effect in H; destruct (not_used _); discriminate H
             | H : redis_get _ = _ |- _ => discriminate H
             | H : redis_get _ ∈ _ |- _ =>
                 exfalso; eapply dispatched_no_read; [eassumption|exact H]
             end.
  - run_POST E req w; intros before c after Heq He;
      try (exfalso; eapply Hnone; [|exact Heq|exact He]; read_trace;
           erewrite ?dispatched_no_quota_write by eassumption; reflexivity).
    rewrite app_comm_cons, !app_assoc in Heq.
    eapply Hlast; [|exact Heq|exact He].
    read_trace. erewrite dispatched_no_quota_write by eassumption. reflexivity.
Qed.

(** X16.  Every response of the gateway carries a content that is truthy:
    never [null] and never empty (the [null] reason of an allowing quota
    check is never sent, and a reply is forwarded only when [!reply] is
    false).  A response with role [assistant] has status 200; a response
    with role [error] has status 400, 429, 500 or, for a reply without a
    message, 200: the status alone does not tell an answer from a failure. *)
Theorem POST_response_contract (E : Env) (req : Request) (w : World)
    (response : Response) :
  (POST E req w).1 = inr response ->
  Boolean (content (body response)) = true /\
  (role (body response) = "assistant" /\ status response = 200 \/
   role (body response) = "error" /\
   (status response = 200 \/ status response = 400 \/
    status response = 429 \/ status response = 500)).
Proof.
  run_POST E req w; intros [= <-]; (split; [|auto 7]); try reflexivity.
  match goal with H : no_reply (Some reply) = false |- _ => revert H end.
  unfold no_reply. simpl. now intros ->%negb_false_iff.
Qed.

Lemma POST_response_contract_witness :
  (POST Scenario.first_is_mute Scenario.ask Scenario.regular).1
  = inr no_response /\
  Boolean (content (body no_response)) = true /\
  (role (body no_response) = "assistant" /\ status no_response = 200 \/
   role (body no_response) = "error" /\
   (status no_response = 200 \/ status no_response = 400 \/
    status no_response = 429 \/ status no_response = 500)).
Proof.
  assert (Hrun : (POST Scenario.first_is_mute Scenario.ask Scenario.regular).1
                 = inr no_response) by (vm_compute; reflexivity).
  exact (conj Hrun
           (POST_response_contract Scenario.first_is_mute Scenario.ask
              Scenario.regular no_response Hrun)).
Defined.
